(** * Embecosm GDB server: RSP utilities and per-core state

    A shallow embedding of the parts of [src/server/RspPacket.h] (the
    [Utils] functions that follow the packet class) and of
    [src/server/GdbServer.h] (the server constants and the nested
    [CoreManager] / [CoreState] classes), with the properties that the
    specification states about them.

    Conventions.
    - A [char] is a [Byte.byte], i.e. its 8-bit pattern.  Whether plain
      [char] is signed is left to the implementation by C++, so the
      conversion [char -> int] takes the signedness as a parameter
      ([char_is_signed]) and every result is proved for both choices.
    - [uint8_t], [unsigned int] and [uint64_t] values are integers in [Z]
      with the wrap-around written out ([u8], [u32], [u64]).
    - A [char *] buffer is the list of the bytes allocated behind the
      pointer; an access outside of it is undefined behaviour in C++ and is
      an explicit failure here. *)

From Stdlib Require Import ZArith Lia Bool.
From Stdlib Require Import Strings.Byte Strings.String.
From stdpp Require Import base option list.

Local Open Scope Z_scope.

(** ** Machine integers and characters *)

Definition wrap (bits x : Z) : Z := x mod 2 ^ bits.
Definition u8 : Z -> Z := wrap 8.
Definition u32 : Z -> Z := wrap 32.
Definition u64 : Z -> Z := wrap 64.

#[global] Instance byte_eq_decision : EqDecision byte := Byte.byte_eq_dec.

(** Bit pattern of a character, [0 .. 255]. *)
Definition bits_of_char (c : byte) : Z := Z.of_N (Byte.to_N c).

(** Conversion of an integer to [char]: the low eight bits are kept. *)
Definition char_of_int (x : Z) : byte :=
  default x00 (Byte.of_N (Z.to_N (u8 x))).

(** Integral promotion of a plain [char] to [int]. *)
Definition int_of_char (char_is_signed : bool) (c : byte) : Z :=
  let b := bits_of_char c in
  if char_is_signed && (128 <=? b) then b - 256 else b.

(** ** Memory behind a [char *], with a record of the accesses

    [rspUnescape] works in place on its argument, so it is embedded in a
    small state and error monad over the allocation.  The [log] is ghost
    state: it records, in program order, every index that is read or
    written, also the one of an access that fails. *)

Module Mem.

Inductive access : Type :=
| ReadAt (i : nat)
| WriteAt (i : nat).

Definition index_of (a : access) : nat :=
  match a with ReadAt i | WriteAt i => i end.

Record heap : Type := Heap { cells : list byte; log : list access }.

Inductive outcome (A : Type) : Type :=
| Done (a : A)
| OutOfBounds (i : nat)
| OutOfFuel.

Arguments Done {A} a.
Arguments OutOfBounds {A} i.
Arguments OutOfFuel {A}.

Definition M (A : Type) : Type := heap -> outcome A * heap.

Definition ret {A} (a : A) : M A := fun h => (Done a, h).

Definition bind {A B} (m : M A) (f : A -> M B) : M B :=
  fun h =>
    match m h with
    | (Done a, h') => f a h'
    | (OutOfBounds i, h') => (OutOfBounds i, h')
    | (OutOfFuel, h') => (OutOfFuel, h')
    end.

Definition out_of_fuel {A} : M A := fun h => (OutOfFuel, h).

(** [buf[i]] as an rvalue. *)
Definition rd (i : nat) : M byte :=
  fun h =>
    let h' := Heap (cells h) (log h ++ [ReadAt i]) in
    match cells h !! i with
    | Some c => (Done c, h')
    | None => (OutOfBounds i, h')
    end.

(** [buf[i] = c]. *)
Definition wr (i : nat) (c : byte) : M unit :=
  fun h =>
    if decide (i < length (cells h))%nat
    then (Done tt, Heap (<[i:=c]> (cells h)) (log h ++ [WriteAt i]))
    else (OutOfBounds i, Heap (cells h) (log h ++ [WriteAt i])).

End Mem.

#[global] Instance M_ret : MRet Mem.M := @Mem.ret.
#[global] Instance M_bind : MBind Mem.M := fun A B f m => Mem.bind m f.

Module Utils.

Section PlainChar.

Variable char_is_signed : bool.

Local Abbreviation to_int := (int_of_char char_is_signed).

(** [uint8_t Utils::char2Hex(int c)] *)
Definition char2Hex (c : Z) : Z :=
  u8 (if (97 <=? c) && (c <=? 102) then c - 97 + 10
      else if (48 <=? c) && (c <=? 57) then c - 48
      else if (65 <=? c) && (c <=? 70) then c - 65 + 10
      else -1).

(** The [static const char map[]] of [hex2Char]: sixteen digits, fifteen
    rows of sixteen NULs, and the terminator of the string literal. *)
Definition hex2Char_map : list byte :=
  list_byte_of_string "0123456789abcdef" ++ replicate (15 * 16) x00 ++ [x00].

(** [char Utils::hex2Char(uint8_t d)] *)
Definition hex2Char (d : Z) : byte :=
  default x00 (hex2Char_map !! Z.to_nat (u8 d)).

(** [buf[i] = c] on an allocation [buf]. *)
Definition store (i : nat) (c : byte) (buf : list byte) : option (list byte) :=
  if decide (i < length buf)%nat then Some (<[i:=c]> buf) else None.

(** Body of both loops of [regVal2Hex]: the low byte of [val] goes to the
    digit pair [n]. *)
Definition put_pair (n : nat) (val : Z) (buf : list byte) : option (list byte) :=
  let byte := u8 (Z.land val 255) in
  buf ← store (n * 2) (hex2Char (Z.land (Z.shiftr byte 4) 15)) buf;
  store (n * 2 + 1) (hex2Char (Z.land byte 15)) buf.

(** [for (n = 0; n < numBytes; n++)], with [todo = numBytes - n]. *)
Fixpoint regVal2Hex_le (todo n : nat) (val : Z) (buf : list byte)
  : option (list byte) :=
  match todo with
  | O => Some buf
  | S todo' =>
      buf ← put_pair n val buf;
      regVal2Hex_le todo' (S n) (val / 256) buf
  end.

(** [for (n = numBytes; n-- > 0;)] *)
Fixpoint regVal2Hex_be (n : nat) (val : Z) (buf : list byte)
  : option (list byte) :=
  match n with
  | O => Some buf
  | S n' =>
      buf ← put_pair n' val buf;
      regVal2Hex_be n' (val / 256) buf
  end.

(** [void Utils::regVal2Hex(uint64_t val, char *buf, size_t numBytes,
    bool isLittleEndianP)]; the result is the buffer afterwards. *)
Definition regVal2Hex (val : Z) (buf : list byte) (numBytes : nat)
    (isLittleEndianP : bool) : option (list byte) :=
  buf ← (if isLittleEndianP
         then regVal2Hex_le numBytes 0 val buf
         else regVal2Hex_be numBytes val buf);
  store (numBytes * 2) x00 buf.

(** [val = (val << 4) | char2Hex(c)] on a [uint64_t val]. *)
Definition shift_in (val : Z) (c : byte) : Z :=
  Z.lor (u64 (Z.shiftl val 4)) (char2Hex (to_int c)).

(** Body of both loops of [hex2RegVal]. *)
Definition get_pair (n : nat) (val : Z) (buf : list byte) : option Z :=
  hi ← buf !! (n * 2)%nat;
  lo ← buf !! (n * 2 + 1)%nat;
  Some (shift_in (shift_in val hi) lo).

(** [for (n = numBytes; n-- > 0;)] *)
Fixpoint hex2RegVal_le (n : nat) (val : Z) (buf : list byte) : option Z :=
  match n with
  | O => Some val
  | S n' =>
      val ← get_pair n' val buf;
      hex2RegVal_le n' val buf
  end.

(** [for (n = 0; n < numBytes; n++)], with [todo = numBytes - n]. *)
Fixpoint hex2RegVal_be (todo n : nat) (val : Z) (buf : list byte) : option Z :=
  match todo with
  | O => Some val
  | S todo' =>
      val ← get_pair n val buf;
      hex2RegVal_be todo' (S n) val buf
  end.

(** [uint64_t Utils::hex2RegVal(const char *buf, size_t numBytes,
    bool isLittleEndianP)] *)
Definition hex2RegVal (buf : list byte) (numBytes : nat)
    (isLittleEndianP : bool) : option Z :=
  if isLittleEndianP
  then hex2RegVal_le numBytes 0 buf
  else hex2RegVal_be numBytes 0 0 buf.

(** [for (i = 0; i < len; i++) val = (val << 4) | char2Hex(buf[i])] *)
Fixpoint hex2Val_loop (todo i : nat) (val : Z) (buf : list byte) : option Z :=
  match todo with
  | O => Some val
  | S todo' =>
      c ← buf !! i;
      hex2Val_loop todo' (S i) (shift_in val c) buf
  end.

(** [uint64_t Utils::hex2Val(const char *buf, size_t len)] *)
Definition hex2Val (buf : list byte) (len : nat) : option Z :=
  hex2Val_loop len 0 0 buf.

(** Loop of [rspUnescape].  The offsets are [size_t] values; they never
    exceed [len + 1], so they are natural numbers here.  Every iteration
    advances [fromOffset], hence [S len] units of fuel are never used up
    (see [rspUnescape_fuel]).  Each [buf[...]] of the source is one [rd]
    or [wr]: the test ['}' == buf[fromOffset]] reads once, and each of the
    two assignments reads its right-hand side and writes
    [buf[toOffset]]. *)
Fixpoint rspUnescape_loop (fuel len fromOffset toOffset : nat) : Mem.M nat :=
  match fuel with
  | O => Mem.out_of_fuel
  | S fuel' =>
      if (fromOffset <? len)%nat then
        c ← Mem.rd fromOffset;
        if to_int c =? 125 then
          let fromOffset := (fromOffset + 1)%nat in
          d ← Mem.rd fromOffset;
          Mem.wr toOffset (char_of_int (Z.lxor (to_int d) 32));;
          rspUnescape_loop fuel' len (fromOffset + 1) (toOffset + 1)
        else
          d ← Mem.rd fromOffset;
          Mem.wr toOffset d;;
          rspUnescape_loop fuel' len (fromOffset + 1) (toOffset + 1)
      else mret toOffset
  end.

(** [std::size_t Utils::rspUnescape(char *buf, std::size_t len)] *)
Definition rspUnescape (len : nat) : Mem.M nat :=
  rspUnescape_loop (S len) len 0 0.

(** The C library's [isxdigit(int)].  It is independent of the locale; its
    argument has to be [EOF] (taken as [-1]) or a value of
    [unsigned char], anything else has no defined result. *)
Definition isxdigit (c : Z) : option bool :=
  if (-1 <=? c) && (c <=? 255)
  then Some ((48 <=? c) && (c <=? 57)
             || (97 <=? c) && (c <=? 102)
             || (65 <=? c) && (c <=? 70))
  else None.

(** [for (i = 0; i < len; i++) if (!isxdigit(buf[i])) return false;] with
    [todo = len - i]. *)
Fixpoint isHexStr_loop (todo i : nat) (buf : list byte) : option bool :=
  match todo with
  | O => Some true
  | S todo' =>
      c ← buf !! i;
      x ← isxdigit (to_int c);
      if (x : bool) then isHexStr_loop todo' (S i) buf else Some false
  end.

(** [bool Utils::isHexStr(const char *buf, const std::size_t len)] *)
Definition isHexStr (buf : list byte) (len : nat) : option bool :=
  if (len <? 1)%nat then Some false else isHexStr_loop len 0 buf.

(** The [do ... while (val != 0)] of [val2Hex].  A [uint64_t] is zero
    after sixteen shifts by four, which is the fuel [val2Hex] gives. *)
Fixpoint val2Hex_digits (fuel : nat) (val : Z) (numChars : nat)
    (buf : list byte) : option (list byte * nat) :=
  match fuel with
  | O => None
  | S fuel' =>
      buf ← store numChars (hex2Char (Z.land val 15)) buf;
      let val := Z.shiftr val 4 in
      let numChars := (numChars + 1)%nat in
      if val =? 0 then Some (buf, numChars)
      else val2Hex_digits fuel' val numChars buf
  end.

(** [for (int i = 0; i < numChars / 2; i++)], the swap of [buf[i]] and
    [buf[numChars - i - 1]], with [todo = numChars / 2 - i]. *)
Fixpoint val2Hex_reverse (todo i numChars : nat) (buf : list byte)
  : option (list byte) :=
  match todo with
  | O => Some buf
  | S todo' =>
      tmp ← buf !! (numChars - i - 1)%nat;
      c ← buf !! i;
      buf ← store (numChars - i - 1) c buf;
      buf ← store i tmp buf;
      val2Hex_reverse todo' (S i) numChars buf
  end.

(** The C library's [strlen]: the index of the first NUL; without a NUL in
    the allocation it reads past the end. *)
Fixpoint strlen (buf : list byte) : option nat :=
  match buf with
  | [] => None
  | c :: buf' => if decide (c = x00) then Some 0%nat else S <$> strlen buf'
  end.

(** [std::size_t Utils::val2Hex(uint64_t val, char *buf)]; the result is
    the buffer afterwards and the returned length. *)
Definition val2Hex (val : Z) (buf : list byte) : option (list byte * nat) :=
  '(buf, numChars) ← val2Hex_digits 16 val 0 buf;
  buf ← val2Hex_reverse (numChars / 2) 0 numChars buf;
  buf ← store numChars x00 buf;
  n ← strlen buf;
  Some (buf, n).

(** Loop of [ascii2Hex], which ends at the NUL of [src]; [dest] and [src]
    are different buffers.  Every iteration reads [src[i]], so the fuel
    [S (length src)] outlasts the allocation of [src]. *)
Fixpoint ascii2Hex_loop (fuel i : nat) (dest src : list byte)
  : option (list byte) :=
  match fuel with
  | O => None
  | S fuel' =>
      c ← src !! i;
      if to_int c =? 0 then store (i * 2) x00 dest
      else
        ch ← src !! i;
        dest ← store (i * 2) (hex2Char (Z.land (Z.shiftr (to_int ch) 4) 15)) dest;
        dest ← store (i * 2 + 1) (hex2Char (Z.land (to_int ch) 15)) dest;
        ascii2Hex_loop fuel' (S i) dest src
  end.

(** [void Utils::ascii2Hex(char *dest, const char *src)]; the result is
    [dest] afterwards. *)
Definition ascii2Hex (dest src : list byte) : option (list byte) :=
  ascii2Hex_loop (S (length src)) 0 dest src.

(** Loop of [hex2Ascii]; the condition
    [src[i * 2] != 0 && src[i * 2 + 1] != 0] reads the second character
    only when the first is not NUL. *)
Fixpoint hex2Ascii_loop (fuel i : nat) (dest src : list byte)
  : option (list byte) :=
  match fuel with
  | O => None
  | S fuel' =>
      hi ← src !! (i * 2)%nat;
      if to_int hi =? 0 then store i x00 dest
      else
        lo ← src !! (i * 2 + 1)%nat;
        if to_int lo =? 0 then store i x00 dest
        else
          hi ← src !! (i * 2)%nat;
          lo ← src !! (i * 2 + 1)%nat;
          dest ← store i
                   (char_of_int
                      (Z.lor (Z.shiftl (Z.land (char2Hex (to_int hi)) 15) 4)
                             (Z.land (char2Hex (to_int lo)) 15)))
                   dest;
          hex2Ascii_loop fuel' (S i) dest src
  end.

(** [void Utils::hex2Ascii(char *dest, const char *src)]; the result is
    [dest] afterwards. *)
Definition hex2Ascii (dest src : list byte) : option (list byte) :=
  hex2Ascii_loop (S (length src)) 0 dest src.

End PlainChar.

(** *** [Utils::split]

    A [std::string] is the list of its characters.  A position is a
    [size_t] that is an index into the string or [npos], the largest
    [size_t]: it is an [option nat] here, [None] for [npos].  The only
    arithmetic on positions that leaves the indices is [npos + 1], which
    wraps around to 0, and [npos - current], a count that reaches past the
    end of the string. *)

(** Index of the first element that satisfies [P]. *)
Fixpoint find_index (P : byte -> bool) (l : list byte) : option nat :=
  match l with
  | [] => None
  | c :: l' => if P c then Some 0%nat else S <$> find_index P l'
  end.

(** The search of [find_first_of] and [find_first_not_of]: the first
    position from [pos] on whose character satisfies [P], or [npos]. *)
Definition find_from (P : byte -> bool) (s : list byte) (pos : nat) : option nat :=
  (fun i => (pos + i)%nat) <$> find_index P (drop pos s).

(** [s.find_first_of(delim, pos)] *)
Definition find_first_of (s delim : list byte) (pos : nat) : option nat :=
  find_from (fun c => bool_decide (c ∈ delim)) s pos.

(** [s.find_first_not_of(delim, pos)] *)
Definition find_first_not_of (s delim : list byte) (pos : nat) : option nat :=
  find_from (fun c => negb (bool_decide (c ∈ delim))) s pos.

(** [next + 1] *)
Definition next_plus_1 (next : option nat) : nat :=
  match next with
  | None => 0
  | Some n => S n
  end.

(** [s.substr(current, next - current)] for [current] within the string
    and [next] behind it. *)
Definition substr (s : list byte) (current : nat) (next : option nat) : list byte :=
  match next with
  | None => drop current s
  | Some n => take (n - current) (drop current s)
  end.

(** The [do ... while (next != s.npos)] of [split].  Every iteration but
    the last moves [next] forward, so [S (length s)] units of fuel are not
    used up (see [split_loop_fields]). *)
Fixpoint split_loop (fuel : nat) (s delim : list byte) (next : option nat)
    (elems : list (list byte)) : option (list (list byte)) :=
  match fuel with
  | O => None
  | S fuel' =>
      match find_first_not_of s delim (next_plus_1 next) with
      | None => Some elems
      | Some current =>
          let next := find_first_of s delim current in
          let elems := elems ++ [substr s current next] in
          match next with
          | None => Some elems
          | Some _ => split_loop fuel' s delim next elems
          end
      end
  end.

(** [vector<string> &Utils::split(const string &s, const string &delim,
    vector<string> &elems)]: [elems] is cleared first, so the result does
    not depend on it; [None] stands for fuel used up. *)
Definition split (s delim : list byte) : option (list (list byte)) :=
  split_loop (S (length s)) s delim None [].

End Utils.

(** ** Vocabulary of the statements *)

(** The digit pair [n] of [buf] holds the two hex digits of the byte [b]. *)
Definition holds_pair (buf : list byte) (n : nat) (b : Z) : Prop :=
  buf !! (n * 2)%nat = Some (Utils.hex2Char (b / 16))
  /\ buf !! (n * 2 + 1)%nat = Some (Utils.hex2Char (b mod 16)).

(** The byte of weight [256 ^ j] of [val]. *)
Definition byte_at (val : Z) (j : nat) : Z := (val / 256 ^ Z.of_nat j) mod 256.

(** The hex digit characters, and the lower-case form of one. *)
Definition is_hex_digit (c : byte) : bool :=
  let b := bits_of_char c in
  (48 <=? b) && (b <=? 57) || (97 <=? b) && (b <=? 102) || (65 <=? b) && (b <=? 70).

Definition lower_case (c : byte) : byte :=
  let b := bits_of_char c in
  if (65 <=? b) && (b <=? 90) then char_of_int (b + 32) else c.

(** The number that a sequence of digit values denotes in base 16, most
    significant digit first. *)
Definition hex_value (digits : list Z) : Z :=
  foldl (fun acc d => acc * 16 + d) 0 digits.

(** The hex digit of weight [16 ^ j] of [val]. *)
Definition nibble_at (val : Z) (j : nat) : Z := (val / 16 ^ Z.of_nat j) mod 16.

(** The two lower-case hex digits of a character, high nibble first. *)
Definition hex_pair (c : byte) : list byte :=
  [Utils.hex2Char (bits_of_char c / 16); Utils.hex2Char (bits_of_char c mod 16)].

(** What [hex2Ascii] takes a character of its input for: the value of a
    hex digit, and 15 for any other character ([char2Hex] gives 255,
    of which the low four bits are kept). *)
Definition nibble_of (char_is_signed : bool) (c : byte) : Z :=
  Utils.char2Hex (int_of_char char_is_signed c) mod 16.

(** The characters of a list of digit pairs, in order. *)
Definition pair_chars (ps : list (byte * byte)) : list byte :=
  p ← ps; [p.1; p.2].

(** [tokens] are the fields of [s]: [s] is made of the tokens, in order,
    with a non-empty run of delimiter characters between two of them and
    possibly empty runs before the first and after the last; a token is
    not empty and has no delimiter character in it. *)
Inductive fields (delim : list byte) : list byte -> list (list byte) -> Prop :=
| fields_none (gap : list byte) :
    Forall (fun c => c ∈ delim) gap ->
    fields delim gap []
| fields_last (gap token : list byte) :
    Forall (fun c => c ∈ delim) gap ->
    token <> [] -> Forall (fun c => c ∉ delim) token ->
    fields delim (gap ++ token) [token]
| fields_more (gap token : list byte) (d : byte) (rest : list byte)
      (tokens : list (list byte)) :
    Forall (fun c => c ∈ delim) gap ->
    token <> [] -> Forall (fun c => c ∉ delim) token ->
    d ∈ delim -> fields delim rest tokens ->
    fields delim (gap ++ token ++ d :: rest) (token :: tokens).

(** What a caller of [char2Hex] gets for a character of its input: the
    value of the hex digit, and 255 for a character that is no hex
    digit. *)
Definition digit_or_255 (c : byte) : Z :=
  let b := bits_of_char c in
  if (48 <=? b) && (b <=? 57) then b - 48
  else if (97 <=? b) && (b <=? 102) then b - 87
  else if (65 <=? b) && (b <=? 70) then b - 55
  else 255.

(** [(val << 4) | d] on 64 bits, and the value that is left when the
    values [ds] have gone through it one after the other, from 0. *)
Definition or_in (val d : Z) : Z := Z.lor ((val * 16) mod 2 ^ 64) d.

Definition or_in_all (ds : list Z) : Z := foldl or_in 0 ds.

(** The characters of the first [w] digit pairs in the order in which the
    little-endian loop of [hex2RegVal] reads them: pair [w - 1] first,
    pair 0 last, each pair high digit first. *)
Fixpoint little_endian_order (w : nat) (l : list byte) : list byte :=
  match w with
  | O => []
  | S w' => take 2 (drop (w' * 2) l) ++ little_endian_order w' l
  end.

(** The escape character ['}'] and the flip of bit 5 ([^ 0x20]). *)
Definition is_escape (c : byte) : bool := bool_decide (c = x7d).

Definition flip_bit5 (c : byte) : byte :=
  char_of_int (Z.lxor (bits_of_char c) 32).

(** Modelled from the spec: the set of bytes that are escaped on send,
    ['#'], ['$'], ['}'] and ['*'] ([RspConnection::putPkt], which does the
    escaping, is not among the sources). *)
Definition needs_escape (c : byte) : bool :=
  bool_decide (c = x23 \/ c = x24 \/ c = x7d \/ c = x2a).

(** Modelled from the spec: the escaping of a payload on send, missing
    with [RspConnection::putPkt].  The spec: the payload is emitted with
    escaping for [#], [$], [}] and [*] (XOR 0x20 prefixed by [}]); every
    other byte is emitted as it is. *)
Definition encode (b : list byte) : list byte :=
  c ← b; if needs_escape c then [x7d; flip_bit5 c] else [c].

(** Escape decoding as a function on the payload: a byte prefixed by ['}']
    is replaced by that byte with bit 5 flipped, every other byte is
    copied.  A ['}'] left without a byte to prefix produces nothing here
    (see [open_escape]). *)
Fixpoint unescaped (l : list byte) : list byte :=
  match l with
  | [] => []
  | c :: l' =>
      if is_escape c
      then match l' with
           | [] => []
           | d :: l'' => flip_bit5 d :: unescaped l''
           end
      else c :: unescaped l'
  end.

(** The payload ends in a ['}'] that starts an escape: it is the last byte
    and not itself the escaped byte of a ['}'] before it. *)
Fixpoint open_escape (l : list byte) : bool :=
  match l with
  | [] => false
  | c :: l' =>
      if is_escape c
      then match l' with
           | [] => true
           | _ :: l'' => open_escape l''
           end
      else open_escape l'
  end.

(** The same condition without a scan from the left: the run of ['}']
    bytes at the end of the payload has odd length (see
    [open_escape_trailing]). *)
Fixpoint leading_escapes (l : list byte) : nat :=
  match l with
  | [] => 0
  | c :: l' => if is_escape c then S (leading_escapes l') else 0
  end.

Definition trailing_escapes (l : list byte) : nat := leading_escapes (rev l).

(** Number of ['}'] prefixes consumed by the decoding. *)
Fixpoint escapes (l : list byte) : nat :=
  match l with
  | [] => 0
  | c :: l' =>
      if is_escape c
      then S (match l' with
              | [] => 0
              | _ :: l'' => escapes l''
              end)
      else escapes l'
  end.

(** The payload: the first [len] bytes of the allocation. *)
Definition payload (len : nat) (h : Mem.heap) : list byte :=
  take len (Mem.cells h).

(** ** [GdbServer]: constants, [CoreState], [CoreManager] *)

Module ITarget.

(** Modelled from the spec: [ITarget::ResumeRes] is declared in
    [embdebug/ITarget.h], which is not among the sources.  The members are
    the results the spec lists for [resume]: NONE (running, not done),
    INTERRUPTED, STEPPED, BREAKPOINT, TIMEOUT, SYSCALL, EXITED, FAILED. *)
Module ResumeRes.
Inductive t : Type :=
| NONE | INTERRUPTED | STEPPED | BREAKPOINT | TIMEOUT | SYSCALL | EXITED | FAILED.

#[global] Instance ResumeRes_eq_dec : EqDecision t.
Proof. solve_decision. Defined.
End ResumeRes.

(** Modelled from the spec: [ITarget::ResumeType], from the same header;
    the spec gives a core's last resume action as None, Step or Continue. *)
Module ResumeType.
Inductive t : Type :=
| NONE | STEP | CONTINUE.

#[global] Instance ResumeType_eq_dec : EqDecision t.
Proof. solve_decision. Defined.
End ResumeType.

End ITarget.

Module GdbServer.

(** [static const int RISCV_NUM_REGS = 33] *)
Definition RISCV_NUM_REGS : Z := 33.

Section RegisterSize.

(** [sizeof(uint_reg_t)]; the type comes from [embdebug/RegisterSizes.h],
    which is not among the sources. *)
Variable sizeof_uint_reg_t : Z.

(** [static const int RISCV_NUM_REG_BYTES = RISCV_NUM_REGS * sizeof(uint_reg_t)] *)
Definition RISCV_NUM_REG_BYTES : Z := RISCV_NUM_REGS * sizeof_uint_reg_t.

(** [static const int RSP_PKT_SIZE =
      (RISCV_NUM_REG_BYTES * 2 + 1) < 256 ? 256 : RISCV_NUM_REG_BYTES * 2 + 1] *)
Definition RSP_PKT_SIZE : Z :=
  if RISCV_NUM_REG_BYTES * 2 + 1 <? 256 then 256 else RISCV_NUM_REG_BYTES * 2 + 1.

End RegisterSize.

(** Modelled from the spec: the size of [uint_reg_t].  The spec fixes the
    register map to 32 general registers and the PC of 4 bytes each, as
    does the comment on [RISCV_NUM_REG_BYTES]. *)
Definition sizeof_uint_reg_t : Z := 4.

Module CoreManager.

(** [static unsigned int pid2CoreNum(unsigned int pid) { return pid - 1; }] *)
Definition pid2CoreNum (pid : Z) : Z := u32 (pid - 1).

(** [static unsigned int coreNum2Pid(unsigned int coreNum) { return coreNum + 1; }] *)
Definition coreNum2Pid (coreNum : Z) : Z := u32 (coreNum + 1).

(** [class CoreState] *)
Record CoreState : Type := {
  mStopReason : ITarget.ResumeRes.t;
  mResumeType : ITarget.ResumeType.t;
  mStopReported : bool;
  mIsLive : bool
}.

(** The constructor [CoreState()]. *)
Definition CoreState_new : CoreState :=
  {| mStopReason := ITarget.ResumeRes.INTERRUPTED;
     mResumeType := ITarget.ResumeType.NONE;
     mStopReported := true;
     mIsLive := true |}.

Definition killCore (s : CoreState) : CoreState :=
  {| mStopReason := mStopReason s; mResumeType := mResumeType s;
     mStopReported := mStopReported s; mIsLive := false |}.

Definition isLive (s : CoreState) : bool := mIsLive s.

Definition stopReason (s : CoreState) : ITarget.ResumeRes.t := mStopReason s.

Definition isRunning (s : CoreState) : bool :=
  bool_decide (mResumeType s <> ITarget.ResumeType.NONE).

Definition hasUnreportedStop (s : CoreState) : bool := negb (mStopReported s).

Definition reportStopReason (s : CoreState) : CoreState :=
  {| mStopReason := mStopReason s; mResumeType := mResumeType s;
     mStopReported := true; mIsLive := mIsLive s |}.

Definition setStopReason (res : ITarget.ResumeRes.t) (s : CoreState) : CoreState :=
  {| mStopReason := res; mResumeType := mResumeType s;
     mStopReported := bool_decide (res = ITarget.ResumeRes.NONE);
     mIsLive := mIsLive s |}.

Definition setResumeType (type : ITarget.ResumeType.t) (s : CoreState) : CoreState :=
  {| mStopReason := mStopReason s; mResumeType := type;
     mStopReported := mStopReported s; mIsLive := mIsLive s |}.

(** The member functions that change a [CoreState]. *)
Inductive method : Type :=
| KillCore
| ReportStopReason
| SetStopReason (res : ITarget.ResumeRes.t)
| SetResumeType (type : ITarget.ResumeType.t).

Definition call (m : method) (s : CoreState) : CoreState :=
  match m with
  | KillCore => killCore s
  | ReportStopReason => reportStopReason s
  | SetStopReason res => setStopReason res s
  | SetResumeType type => setResumeType type s
  end.

(** The invariant of the class: a stop that has not been reported has a
    reason other than NONE. *)
Definition stop_is_pending (s : CoreState) : Prop :=
  mStopReported s = false -> stopReason s <> ITarget.ResumeRes.NONE.

(** [class CoreManager]: the counts are [unsigned int] values that are only
    compared and the index is a [size_t], so they are natural numbers. *)
Record t : Type := {
  mNumCores : nat;
  mLiveCores : nat;
  mCoreStates : list CoreState
}.

(** Modelled from the spec: the constructor [CoreManager(unsigned int
    count)], defined in [GdbServer.cpp], which is not among the sources.
    The spec: [new(count)] allocates [count] CoreState with [live=true]. *)
Definition new (count : nat) : t :=
  {| mNumCores := count; mLiveCores := count;
     mCoreStates := replicate count CoreState_new |}.

(** The vector holds one state per core. *)
Definition well_formed (cm : t) : Prop := length (mCoreStates cm) = mNumCores cm.

(** What an evaluation of [cm[idx]] comes to. *)
Inductive indexed : Type :=
| AssertionFailed
| Element (c : CoreState)
| OutsideVector.

(** [CoreState &operator[](std::size_t idx)] and its [const] twin:
    [assert(idx < mNumCores); return mCoreStates[idx];] *)
Definition index (cm : t) (idx : nat) : indexed :=
  if decide (idx < mNumCores cm)%nat
  then match mCoreStates cm !! idx with
       | Some c => Element c
       | None => OutsideVector
       end
  else AssertionFailed.

(** [unsigned int getCpuCount() const] *)
Definition getCpuCount (cm : t) : nat := mNumCores cm.

(** [unsigned int getLiveCoreCount() const] *)
Definition getLiveCoreCount (cm : t) : nat := mLiveCores cm.

(** [bool isCoreLive(unsigned int coreNum) const]: the vector is indexed
    without an assertion, so an index outside of it has no defined
    result. *)
Definition isCoreLive (cm : t) (coreNum : nat) : option bool :=
  c ← mCoreStates cm !! coreNum; Some (isLive c).

(** The member of a [CoreState] that a member function assigns. *)
Inductive member : Type := StopMembers | ResumeMember | LiveMember.

Definition assigns (m : method) : member :=
  match m with
  | KillCore => LiveMember
  | ReportStopReason | SetStopReason _ => StopMembers
  | SetResumeType _ => ResumeMember
  end.

(** A run of member function calls on one object, first call first. *)
Definition calls (ms : list method) (s : CoreState) : CoreState :=
  foldl (fun s m => call m s) s ms.

End CoreManager.

(** [static const int PID_DEFAULT = 1] and [TID_DEFAULT = 1] *)
Definition PID_DEFAULT : Z := 1.
Definition TID_DEFAULT : Z := 1.

End GdbServer.

(** ** Hex digits *)

Section HexFacts.

Variable char_is_signed : bool.

Local Abbreviation char2Hex_of c := (Utils.char2Hex (int_of_char char_is_signed c)).

(** Case analysis on an integer of a small range. *)
Lemma Z_below_cases (P : Z -> Prop) (n : nat) :
  (forall k : nat, (k < n)%nat -> P (Z.of_nat k)) ->
  forall d, 0 <= d < Z.of_nat n -> P d.
Proof.
  intros HP d Hd. rewrite <- (Z2Nat.id d) by lia. apply HP. lia.
Qed.

Ltac small_cases d H :=
  revert d H; apply Z_below_cases with (n := 16%nat);
  let k := fresh "k" in let Hk := fresh "Hk" in
  intros k Hk; do 16 (destruct k as [|k]; [vm_compute; reflexivity|]); lia.

Lemma char2Hex_hex2Char d :
  0 <= d < 16 -> char2Hex_of (Utils.hex2Char d) = d.
Proof.
  intros H. destruct char_is_signed.
  - change 16 with (Z.of_nat 16) in H. small_cases d H.
  - change 16 with (Z.of_nat 16) in H. small_cases d H.
Qed.

(** [a | d] is [a + d] when [a] is a multiple of 16 and [d] a hex digit. *)
Lemma lor_digit q d : 0 <= d < 16 -> Z.lor (q * 16) d = q * 16 + d.
Proof.
  intros Hd. rewrite <- Z.add_lor_land.
  assert (Hz : Z.land (q * 16) d = 0); [|lia].
  apply Z.bits_inj'. intros n Hn.
  rewrite Z.land_spec, Z.bits_0.
  destruct (Z.lt_ge_cases n 4) as [Hlt|Hge].
  - change 16 with (2 ^ 4). rewrite Z.mul_pow2_bits_low by lia. reflexivity.
  - rewrite <- (Z.mod_small d (2 ^ 4)) by (change (2 ^ 4) with 16; lia).
    rewrite Z.mod_pow2_bits_high by lia. apply andb_false_r.
Qed.

Lemma u64_shift4 val : u64 (Z.shiftl val 4) = (val mod 2 ^ 60) * 16.
Proof.
  unfold u64, wrap. rewrite Z.shiftl_mul_pow2 by lia.
  change (2 ^ 64) with (2 ^ 60 * 2 ^ 4). change (2 ^ 4) with 16.
  rewrite Z.mul_mod_distr_r by lia. reflexivity.
Qed.

(** Shifting a hex digit in is multiplication by 16 and addition. *)
Lemma shift_in_digit val d :
  0 <= d < 16 ->
  Utils.shift_in char_is_signed val (Utils.hex2Char d) = u64 (val * 16 + d).
Proof.
  intros Hd. unfold Utils.shift_in.
  rewrite char2Hex_hex2Char, u64_shift4, lor_digit by assumption.
  unfold u64, wrap. change (2 ^ 64) with (2 ^ 60 * 16).
  pose proof (Z.mod_pos_bound val (2 ^ 60) ltac:(lia)) as Hr.
  apply Z.mod_unique with (q := val / 2 ^ 60); [lia|].
  pose proof (Z.div_mod val (2 ^ 60) ltac:(lia)). lia.
Qed.

Lemma u64_idemp_mul_add a c d : u64 (u64 a * c + d) = u64 (a * c + d).
Proof.
  unfold u64, wrap.
  rewrite <- Z.add_mod_idemp_l, Z.mul_mod_idemp_l by lia.
  rewrite Z.add_mod_idemp_l by lia. reflexivity.
Qed.

Lemma get_pair_spec buf n b val :
  0 <= b < 256 -> holds_pair buf n b ->
  Utils.get_pair char_is_signed n val buf = Some (u64 (val * 256 + b)).
Proof.
  intros Hb [Hhi Hlo]. unfold Utils.get_pair. rewrite Hhi, Hlo. simpl.
  pose proof (Z.div_mod b 16 ltac:(lia)) as Hdm.
  assert (0 <= b mod 16 < 16) by (apply Z.mod_pos_bound; lia).
  assert (0 <= b / 16 < 16) by lia.
  rewrite !shift_in_digit by assumption. rewrite u64_idemp_mul_add.
  replace ((val * 16 + b / 16) * 16 + b mod 16) with (val * 256 + b) by lia.
  reflexivity.
Qed.

Lemma byte_at_range val j : 0 <= byte_at val j < 256.
Proof. apply Z.mod_pos_bound. lia. Qed.

Lemma byte_at_0 val : byte_at val 0 = val mod 256.
Proof. unfold byte_at. simpl. rewrite Z.div_1_r. reflexivity. Qed.

Lemma byte_at_S val j : byte_at (val / 256) j = byte_at val (S j).
Proof.
  unfold byte_at. rewrite Nat2Z.inj_succ, Z.pow_succ_r by lia.
  rewrite Z.div_div by lia. reflexivity.
Qed.

Lemma low_bytes_S v k :
  byte_at v k * 256 ^ Z.of_nat k + v mod 256 ^ Z.of_nat k
  = v mod 256 ^ Z.of_nat (S k).
Proof.
  unfold byte_at. rewrite Nat2Z.inj_succ, Z.pow_succ_r by lia.
  rewrite (Z.mul_comm 256), Z.rem_mul_r by lia. lia.
Qed.

Lemma low_byte val : u8 (Z.land val 255) = val mod 256.
Proof.
  unfold u8, wrap. change 255 with (Z.ones 8).
  rewrite Z.land_ones by lia. change (2 ^ 8) with 256.
  apply Z.mod_mod. lia.
Qed.

Lemma high_nibble b : 0 <= b < 256 -> Z.land (Z.shiftr b 4) 15 = b / 16.
Proof.
  intros Hb. change 15 with (Z.ones 4).
  rewrite Z.land_ones, Z.shiftr_div_pow2 by lia. change (2 ^ 4) with 16.
  apply Z.mod_small. pose proof (Z.div_mod b 16 ltac:(lia)).
  pose proof (Z.mod_pos_bound b 16 ltac:(lia)). lia.
Qed.

Lemma low_nibble b : Z.land b 15 = b mod 16.
Proof. change 15 with (Z.ones 4). rewrite Z.land_ones by lia. reflexivity. Qed.

(** What one iteration of [regVal2Hex] does to an allocation that holds
    the digit pair [n]. *)
Lemma put_pair_spec n val (buf : list byte) :
  (n * 2 + 1 < length buf)%nat ->
  exists buf',
    Utils.put_pair n val buf = Some buf'
    /\ length buf' = length buf
    /\ holds_pair buf' n (val mod 256)
    /\ (forall i, i <> (n * 2)%nat -> i <> (n * 2 + 1)%nat -> buf' !! i = buf !! i).
Proof.
  intros Hlen. unfold Utils.put_pair, Utils.store.
  rewrite low_byte, low_nibble.
  rewrite high_nibble by (apply Z.mod_pos_bound; lia).
  rewrite decide_True by lia. simpl.
  rewrite decide_True by (rewrite length_insert; lia).
  eexists. split; [reflexivity|]. rewrite !length_insert. split; [reflexivity|].
  split; [split|].
  - rewrite list_lookup_insert_ne by lia.
    rewrite list_lookup_insert_eq by lia. reflexivity.
  - rewrite list_lookup_insert_eq by (rewrite length_insert; lia). reflexivity.
  - intros i H1 H2. rewrite !list_lookup_insert_ne by lia. reflexivity.
Qed.

Lemma holds_pair_ext (buf buf' : list byte) n b :
  buf' !! (n * 2)%nat = buf !! (n * 2)%nat ->
  buf' !! (n * 2 + 1)%nat = buf !! (n * 2 + 1)%nat ->
  holds_pair buf n b -> holds_pair buf' n b.
Proof. unfold holds_pair. intros -> ->. tauto. Qed.

Lemma regVal2Hex_le_spec todo : forall n val (buf : list byte),
  ((n + todo) * 2 <= length buf)%nat ->
  exists buf',
    Utils.regVal2Hex_le todo n val buf = Some buf'
    /\ length buf' = length buf
    /\ (forall j, (j < todo)%nat -> holds_pair buf' (n + j) (byte_at val j))
    /\ (forall i, (i < n * 2 \/ (n + todo) * 2 <= i)%nat -> buf' !! i = buf !! i).
Proof.
  induction todo as [|todo IH]; intros n val buf Hlen; simpl.
  - exists buf. split; [reflexivity|]. split; [reflexivity|].
    split; [intros j Hj; lia|intros; reflexivity].
  - destruct (put_pair_spec n val buf ltac:(lia)) as (b1 & -> & Hl1 & Hp1 & Ho1).
    simpl.
    destruct (IH (S n) (val / 256) b1 ltac:(lia)) as (b2 & -> & Hl2 & Hp2 & Ho2).
    exists b2. split; [reflexivity|]. split; [lia|]. split.
    + intros [|j] Hj.
      * rewrite Nat.add_0_r, byte_at_0.
        apply (holds_pair_ext b1); [apply Ho2; lia..|exact Hp1].
      * rewrite <- byte_at_S. replace (n + S j)%nat with (S n + j)%nat by lia.
        apply Hp2. lia.
    + intros i Hi. rewrite Ho2 by lia. apply Ho1; lia.
Qed.

Lemma regVal2Hex_be_spec n : forall val (buf : list byte),
  (n * 2 <= length buf)%nat ->
  exists buf',
    Utils.regVal2Hex_be n val buf = Some buf'
    /\ length buf' = length buf
    /\ (forall i, (i < n)%nat -> holds_pair buf' i (byte_at val (n - 1 - i)))
    /\ (forall i, (n * 2 <= i)%nat -> buf' !! i = buf !! i).
Proof.
  induction n as [|n IH]; intros val buf Hlen; simpl.
  - exists buf. split; [reflexivity|]. split; [reflexivity|].
    split; [intros j Hj; lia|intros; reflexivity].
  - destruct (put_pair_spec n val buf ltac:(lia)) as (b1 & -> & Hl1 & Hp1 & Ho1).
    simpl.
    destruct (IH (val / 256) b1 ltac:(lia)) as (b2 & -> & Hl2 & Hp2 & Ho2).
    exists b2. split; [reflexivity|]. split; [lia|]. split.
    + intros i Hi. destruct (decide (i = n)) as [->|Hne].
      * replace (n - 0 - n)%nat with 0%nat by lia. rewrite byte_at_0.
        apply (holds_pair_ext b1); [apply Ho2; lia..|exact Hp1].
      * replace (n - 0 - i)%nat with (S (n - 1 - i)) by lia.
        rewrite <- byte_at_S. apply Hp2. lia.
    + intros i Hi. rewrite Ho2 by lia. apply Ho1; lia.
Qed.

Lemma shift_byte_in val v k :
  u64 (u64 (val * 256 + byte_at v k) * 256 ^ Z.of_nat k + v mod 256 ^ Z.of_nat k)
  = u64 (val * 256 ^ Z.of_nat (S k) + v mod 256 ^ Z.of_nat (S k)).
Proof.
  rewrite u64_idemp_mul_add, <- low_bytes_S.
  rewrite Nat2Z.inj_succ, Z.pow_succ_r by lia. f_equal. ring.
Qed.

Lemma u64_range x : 0 <= u64 x < 2 ^ 64.
Proof. apply Z.mod_pos_bound. lia. Qed.

Lemma u64_small x : 0 <= x < 2 ^ 64 -> u64 x = x.
Proof. apply Z.mod_small. Qed.

Lemma hex2RegVal_le_spec v (buf : list byte) n : forall val,
  0 <= val < 2 ^ 64 ->
  (forall i, (i < n)%nat -> holds_pair buf i (byte_at v i)) ->
  Utils.hex2RegVal_le char_is_signed n val buf
  = Some (u64 (val * 256 ^ Z.of_nat n + v mod 256 ^ Z.of_nat n)).
Proof.
  induction n as [|n IH]; intros val Hval Hp; simpl Utils.hex2RegVal_le.
  - change (256 ^ Z.of_nat 0) with 1. rewrite Z.mod_1_r, Z.mul_1_r, Z.add_0_r.
    rewrite u64_small by assumption. reflexivity.
  - rewrite (get_pair_spec buf n (byte_at v n)) by auto using byte_at_range.
    simpl. rewrite IH by auto using u64_range. f_equal. apply shift_byte_in.
Qed.

Lemma hex2RegVal_be_spec v (buf : list byte) todo : forall n val,
  0 <= val < 2 ^ 64 ->
  (forall j, (j < todo)%nat -> holds_pair buf (n + j) (byte_at v (todo - 1 - j))) ->
  Utils.hex2RegVal_be char_is_signed todo n val buf
  = Some (u64 (val * 256 ^ Z.of_nat todo + v mod 256 ^ Z.of_nat todo)).
Proof.
  induction todo as [|todo IH]; intros n val Hval Hp; simpl Utils.hex2RegVal_be.
  - change (256 ^ Z.of_nat 0) with 1. rewrite Z.mod_1_r, Z.mul_1_r, Z.add_0_r.
    rewrite u64_small by assumption. reflexivity.
  - rewrite (get_pair_spec buf n (byte_at v todo)); [|apply byte_at_range|].
    + simpl. rewrite IH; [f_equal; apply shift_byte_in|apply u64_range|].
      intros j Hj. replace (S n + j)%nat with (n + S j)%nat by lia.
      replace (todo - 1 - j)%nat with (S todo - 1 - S j)%nat by lia.
      apply Hp. lia.
    + specialize (Hp 0%nat ltac:(lia)).
      rewrite Nat.add_0_r in Hp.
      replace (S todo - 1 - 0)%nat with todo in Hp by lia. exact Hp.
Qed.

Lemma low_bytes_range v w : 0 <= v < 2 ^ 64 -> 0 <= v mod 256 ^ Z.of_nat w < 2 ^ 64.
Proof.
  intros Hv. pose proof (Z.mod_pos_bound v (256 ^ Z.of_nat w) ltac:(lia)).
  pose proof (Z.mod_le v (256 ^ Z.of_nat w) ltac:(lia) ltac:(lia)). lia.
Qed.

(** Rendering then parsing gives back the [numBytes] low-order bytes. *)
Lemma hex_roundtrip_low_bytes v (buf : list byte) w le :
  0 <= v < 2 ^ 64 -> (w * 2 + 1 <= length buf)%nat ->
  exists buf',
    Utils.regVal2Hex v buf w le = Some buf'
    /\ length buf' = length buf
    /\ buf' !! (w * 2)%nat = Some x00
    /\ (forall i, (w * 2 < i)%nat -> buf' !! i = buf !! i)
    /\ Utils.hex2RegVal char_is_signed buf' w le = Some (v mod 256 ^ Z.of_nat w).
Proof.
  intros Hv Hlen. unfold Utils.regVal2Hex, Utils.hex2RegVal, Utils.store.
  destruct le.
  - destruct (regVal2Hex_le_spec w 0 v buf ltac:(lia)) as (b1 & -> & Hl & Hp & Ho).
    simpl. rewrite decide_True by lia. eexists. split; [reflexivity|].
    rewrite length_insert. split; [assumption|].
    split; [apply list_lookup_insert_eq; lia|].
    split; [intros i Hi; rewrite list_lookup_insert_ne by lia; apply Ho; lia|].
    rewrite (hex2RegVal_le_spec v).
    + rewrite Z.mul_0_l, Z.add_0_l, u64_small by (apply low_bytes_range, Hv).
      reflexivity.
    + lia.
    + intros i Hi. apply (holds_pair_ext b1);
        [apply list_lookup_insert_ne; lia..|apply (Hp i Hi)].
  - destruct (regVal2Hex_be_spec w v buf ltac:(lia)) as (b1 & -> & Hl & Hp & Ho).
    simpl. rewrite decide_True by lia. eexists. split; [reflexivity|].
    rewrite length_insert. split; [assumption|].
    split; [apply list_lookup_insert_eq; lia|].
    split; [intros i Hi; rewrite list_lookup_insert_ne by lia; apply Ho; lia|].
    rewrite (hex2RegVal_be_spec v).
    + rewrite Z.mul_0_l, Z.add_0_l, u64_small by (apply low_bytes_range, Hv).
      reflexivity.
    + lia.
    + intros i Hi. apply (holds_pair_ext b1);
        [apply list_lookup_insert_ne; lia..|apply (Hp i Hi)].
Qed.

End HexFacts.

(** ** Escape decoding *)

Section Unescape.

Variable char_is_signed : bool.

Local Abbreviation loop := (Utils.rspUnescape_loop char_is_signed).

Lemma is_escape_int c : (int_of_char char_is_signed c =? 125) = is_escape c.
Proof. destruct char_is_signed, c; reflexivity. Qed.

Lemma flip_bit5_int c :
  char_of_int (Z.lxor (int_of_char char_is_signed c) 32) = flip_bit5 c.
Proof. destruct char_is_signed, c; vm_compute; reflexivity. Qed.

Lemma flip_bit5_involutive c : flip_bit5 (flip_bit5 c) = c.
Proof. destruct c; vm_compute; reflexivity. Qed.

(** *** One iteration *)

Lemma loop_exit fuel len from to h :
  (len <= from)%nat ->
  loop (S fuel) len from to h = (Mem.Done to, h).
Proof.
  intros Hle. simpl. destruct (Nat.ltb_spec from len); [lia|]. reflexivity.
Qed.

Lemma loop_copy fuel len from to h c :
  (from < len)%nat -> (to < length (Mem.cells h))%nat ->
  Mem.cells h !! from = Some c -> is_escape c = false ->
  loop (S fuel) len from to h
  = loop fuel len (from + 1) (to + 1)
      (Mem.Heap (<[to:=c]> (Mem.cells h))
                (Mem.log h ++ [Mem.ReadAt from; Mem.ReadAt from; Mem.WriteAt to])).
Proof.
  intros Hlt Hto Hc Hesc. simpl.
  destruct (Nat.ltb_spec from len); [|lia].
  unfold mbind, M_bind, Mem.bind at 1, Mem.rd at 1. rewrite Hc.
  rewrite is_escape_int, Hesc.
  unfold Mem.bind at 1, Mem.rd at 1. simpl. rewrite Hc.
  unfold Mem.bind at 1, Mem.wr. simpl. rewrite decide_True by assumption.
  rewrite <- !app_assoc. reflexivity.
Qed.

Lemma loop_escape fuel len from to h d :
  (from < len)%nat -> (to < length (Mem.cells h))%nat ->
  Mem.cells h !! from = Some x7d -> Mem.cells h !! (from + 1)%nat = Some d ->
  loop (S fuel) len from to h
  = loop fuel len (from + 1 + 1) (to + 1)
      (Mem.Heap (<[to:=flip_bit5 d]> (Mem.cells h))
                (Mem.log h ++ [Mem.ReadAt from; Mem.ReadAt (from + 1); Mem.WriteAt to])).
Proof.
  intros Hlt Hto Hc Hd. simpl.
  destruct (Nat.ltb_spec from len); [|lia].
  unfold mbind, M_bind, Mem.bind at 1, Mem.rd at 1. rewrite Hc.
  rewrite is_escape_int. change (is_escape x7d) with true. cbv iota.
  unfold Mem.bind at 1, Mem.rd at 1. simpl. rewrite Hd.
  unfold Mem.bind at 1, Mem.wr. simpl. rewrite decide_True by assumption.
  rewrite flip_bit5_int, <- !app_assoc. reflexivity.
Qed.

Lemma loop_overrun fuel len from to h :
  (from < len)%nat ->
  Mem.cells h !! from = Some x7d -> Mem.cells h !! (from + 1)%nat = None ->
  loop (S fuel) len from to h
  = (Mem.OutOfBounds (from + 1),
     Mem.Heap (Mem.cells h) (Mem.log h ++ [Mem.ReadAt from; Mem.ReadAt (from + 1)])).
Proof.
  intros Hlt Hc Hd. simpl.
  destruct (Nat.ltb_spec from len); [|lia].
  unfold mbind, M_bind, Mem.bind at 1, Mem.rd at 1. rewrite Hc.
  rewrite is_escape_int. change (is_escape x7d) with true. cbv iota.
  unfold Mem.bind at 1, Mem.rd at 1. simpl. rewrite Hd.
  rewrite <- !app_assoc. reflexivity.
Qed.

(** *** The bytes still to be read *)

Local Open Scope nat_scope.

Local Abbreviation pending len from cells := (take (len - from) (drop from cells)).

Lemma pending_nil len (cells : list byte) : pending len len cells = [].
Proof. rewrite Nat.sub_diag. reflexivity. Qed.

Lemma pending_cons len from (cells : list byte) c :
  (from < len)%nat -> cells !! from = Some c ->
  pending len from cells = c :: pending len (S from) cells.
Proof.
  intros Hlt Hc. rewrite (drop_S _ c) by assumption.
  replace (len - from)%nat with (S (len - S from)) by lia. reflexivity.
Qed.

Lemma pending_insert len from to (cells : list byte) x :
  (to < from)%nat -> pending len from (<[to:=x]> cells) = pending len from cells.
Proof. intros Hlt. rewrite drop_insert_lt by assumption. reflexivity. Qed.

Lemma take_insert_S to (cells : list byte) x :
  (to < length cells)%nat ->
  take (to + 1) (<[to:=x]> cells) = take to cells ++ [x].
Proof.
  intros Hlt. rewrite Nat.add_1_r.
  rewrite (take_S_r _ _ x) by (apply list_lookup_insert_eq; assumption).
  rewrite take_insert_ge by lia. reflexivity.
Qed.

(** The state after an iteration that wrote [x] at [to], in the shape the
    induction needs. *)
Lemma written_state to (cells out : list byte) x :
  (to < length cells)%nat ->
  take (to + 1) (<[to:=x]> cells) ++ out
    ++ drop (to + 1 + length out) (<[to:=x]> cells)
  = take to cells ++ (x :: out) ++ drop (to + length (x :: out)) cells.
Proof.
  intros Hlt. rewrite take_insert_S by assumption.
  rewrite drop_insert_lt by lia. rewrite <- app_assoc. simpl.
  replace (to + 1 + length out)%nat with (to + S (length out))%nat by lia.
  reflexivity.
Qed.

(** *** Payloads without a dangling escape *)

Lemma unescaped_escape d l : unescaped (x7d :: d :: l) = flip_bit5 d :: unescaped l.
Proof. reflexivity. Qed.

Lemma unescaped_copy c l : is_escape c = false -> unescaped (c :: l) = c :: unescaped l.
Proof. intros H. simpl. rewrite H. reflexivity. Qed.

Lemma open_escape_escape d l : open_escape (x7d :: d :: l) = open_escape l.
Proof. reflexivity. Qed.

Lemma open_escape_copy c l : is_escape c = false -> open_escape (c :: l) = open_escape l.
Proof. intros H. simpl. rewrite H. reflexivity. Qed.

Lemma loop_closed fuel : forall len from to h,
  (to <= from <= len)%nat -> (len <= length (Mem.cells h))%nat ->
  open_escape (pending len from (Mem.cells h)) = false ->
  (len - from < fuel)%nat ->
  exists lg,
    loop fuel len from to h
    = (Mem.Done (to + length (unescaped (pending len from (Mem.cells h)))),
       Mem.Heap
         (take to (Mem.cells h)
            ++ unescaped (pending len from (Mem.cells h))
            ++ drop (to + length (unescaped (pending len from (Mem.cells h))))
                 (Mem.cells h))
         (Mem.log h ++ lg))
    /\ Forall (fun a => (Mem.index_of a < len)%nat) lg.
Proof.
  induction fuel as [|fuel IH]; intros len from to h Hft Hlen Hclosed Hfuel;
    [lia|].
  destruct (decide (from = len)) as [->|Hne].
  - exists []. rewrite loop_exit by lia. rewrite pending_nil. simpl.
    rewrite Nat.add_0_r, take_drop, app_nil_r. destruct h; auto.
  - destruct (lookup_lt_is_Some_2 (Mem.cells h) from ltac:(lia)) as [c Hc].
    rewrite (pending_cons _ _ _ c) in * by (assumption || lia).
    destruct (is_escape c) eqn:Hesc.
    + apply bool_decide_eq_true in Hesc. subst c.
      destruct (decide (S from = len)) as [Hlast|Hmore].
      { rewrite Hlast, pending_nil in Hclosed. discriminate. }
      destruct (lookup_lt_is_Some_2 (Mem.cells h) (S from) ltac:(lia)) as [d Hd].
      rewrite (pending_cons _ _ _ d) in * by (assumption || lia).
      rewrite open_escape_escape in Hclosed. rewrite unescaped_escape.
      rewrite (loop_escape _ _ _ _ _ d)
        by (try assumption; try lia; rewrite Nat.add_1_r; assumption).
      destruct (IH len (from + 1 + 1)%nat (to + 1)%nat
                  (Mem.Heap (<[to:=flip_bit5 d]> (Mem.cells h))
                     (Mem.log h ++ [Mem.ReadAt from; Mem.ReadAt (from + 1); Mem.WriteAt to])))
        as (lg & -> & Hlg); simpl.
      * lia.
      * rewrite length_insert. lia.
      * rewrite pending_insert by lia.
        replace (from + 1 + 1)%nat with (S (S from)) by lia. exact Hclosed.
      * lia.
      * exists ([Mem.ReadAt from; Mem.ReadAt (from + 1); Mem.WriteAt to] ++ lg).
        rewrite pending_insert by lia.
        replace (from + 1 + 1)%nat with (S (S from)) by lia.
        rewrite written_state by lia. rewrite <- app_assoc. simpl.
        split; [f_equal; f_equal; lia|].
        repeat (apply Forall_cons; split; [simpl; lia|]). exact Hlg.
    + rewrite open_escape_copy in Hclosed by assumption.
      rewrite unescaped_copy by assumption.
      rewrite (loop_copy _ _ _ _ _ c) by (assumption || lia).
      destruct (IH len (from + 1)%nat (to + 1)%nat
                  (Mem.Heap (<[to:=c]> (Mem.cells h))
                     (Mem.log h ++ [Mem.ReadAt from; Mem.ReadAt from; Mem.WriteAt to])))
        as (lg & -> & Hlg); simpl.
      * lia.
      * rewrite length_insert. lia.
      * rewrite pending_insert by lia.
        replace (from + 1)%nat with (S from) by lia. exact Hclosed.
      * lia.
      * exists ([Mem.ReadAt from; Mem.ReadAt from; Mem.WriteAt to] ++ lg).
        rewrite pending_insert by lia.
        replace (from + 1)%nat with (S from) by lia.
        rewrite written_state by lia. rewrite <- app_assoc. simpl.
        split; [f_equal; f_equal; lia|].
        repeat (apply Forall_cons; split; [simpl; lia|]). exact Hlg.
Qed.

(** *** Payloads that end in a dangling escape *)

Lemma loop_open fuel : forall len from to h,
  (to <= from <= len)%nat -> (len <= length (Mem.cells h))%nat ->
  open_escape (pending len from (Mem.cells h)) = true ->
  (len - from < fuel)%nat ->
  exists lg,
    Forall (fun a => (Mem.index_of a < len)%nat) lg
    /\ (forall d, Mem.cells h !! len = Some d ->
         let out := unescaped (pending len from (Mem.cells h)) ++ [flip_bit5 d] in
         loop fuel len from to h
         = (Mem.Done (to + length out),
            Mem.Heap
              (take to (Mem.cells h) ++ out ++ drop (to + length out) (Mem.cells h))
              (Mem.log h ++ lg
                 ++ [Mem.ReadAt (len - 1); Mem.ReadAt len;
                     Mem.WriteAt (to + length (unescaped (pending len from (Mem.cells h))))])))
    /\ (Mem.cells h !! len = None ->
         let out := unescaped (pending len from (Mem.cells h)) in
         loop fuel len from to h
         = (Mem.OutOfBounds len,
            Mem.Heap
              (take to (Mem.cells h) ++ out ++ drop (to + length out) (Mem.cells h))
              (Mem.log h ++ lg ++ [Mem.ReadAt (len - 1); Mem.ReadAt len]))).
Proof.
  induction fuel as [|fuel IH]; intros len from to h Hft Hlen Hopen Hfuel;
    [lia|].
  destruct (decide (from = len)) as [->|Hne].
  { rewrite pending_nil in Hopen. discriminate. }
  destruct (lookup_lt_is_Some_2 (Mem.cells h) from ltac:(lia)) as [c Hc].
  rewrite (pending_cons _ _ _ c) in * by (assumption || lia).
  destruct (is_escape c) eqn:Hesc.
  - apply bool_decide_eq_true in Hesc. subst c.
    destruct (decide (S from = len)) as [Hlast|Hmore].
    + (* the dangling escape itself *)
      subst len. rewrite pending_nil. exists []. split; [constructor|].
      replace (S from - 1) with from by lia.
      change (unescaped [x7d]) with (@nil byte).
      cbn [app length]. rewrite Nat.add_0_r.
      split.
      * intros d Hd. destruct fuel as [|fuel]; [lia|].
        rewrite (loop_escape _ _ _ _ _ d)
          by (try assumption; try lia; rewrite Nat.add_1_r; assumption).
        rewrite loop_exit by lia.
        rewrite (Nat.add_1_r from), (Nat.add_1_r to).
        rewrite <- insert_take_drop by lia. reflexivity.
      * intros Hd.
        rewrite loop_overrun
          by (try assumption; try lia; rewrite Nat.add_1_r; assumption).
        rewrite take_drop, (Nat.add_1_r from). reflexivity.
    + destruct (lookup_lt_is_Some_2 (Mem.cells h) (S from) ltac:(lia)) as [d Hd].
      rewrite (pending_cons _ _ _ d) in * by (assumption || lia).
      rewrite open_escape_escape in Hopen. rewrite unescaped_escape.
      rewrite (loop_escape _ _ _ _ _ d)
        by (try assumption; try lia; rewrite Nat.add_1_r; assumption).
      replace (from + 1 + 1) with (S (S from)) by lia.
      destruct (IH len (S (S from)) (to + 1)
                  (Mem.Heap (<[to:=flip_bit5 d]> (Mem.cells h))
                     (Mem.log h ++ [Mem.ReadAt from; Mem.ReadAt (from + 1); Mem.WriteAt to])))
        as (lg & Hlg & Hsome & Hnone); simpl.
      * lia.
      * rewrite length_insert. lia.
      * rewrite pending_insert by lia. exact Hopen.
      * lia.
      * simpl in Hsome, Hnone.
        rewrite pending_insert in Hsome, Hnone by lia.
        rewrite list_lookup_insert_ne in Hsome, Hnone by lia.
        exists ([Mem.ReadAt from; Mem.ReadAt (from + 1); Mem.WriteAt to] ++ lg).
        split; [repeat (apply Forall_cons; split; [simpl; lia|]); exact Hlg|].
        split.
        -- intros e He. rewrite (Hsome e He).
           rewrite written_state by lia.
           simpl. rewrite <- ?app_assoc, <- ?Nat.add_assoc. reflexivity.
        -- intros He. rewrite (Hnone He).
           rewrite written_state by lia.
           simpl. rewrite <- ?app_assoc, <- ?Nat.add_assoc. reflexivity.
  - rewrite open_escape_copy in Hopen by assumption.
    rewrite unescaped_copy by assumption.
    rewrite (loop_copy _ _ _ _ _ c) by (assumption || lia).
    replace (from + 1) with (S from) by lia.
    destruct (IH len (S from) (to + 1)
                (Mem.Heap (<[to:=c]> (Mem.cells h))
                   (Mem.log h ++ [Mem.ReadAt from; Mem.ReadAt from; Mem.WriteAt to])))
      as (lg & Hlg & Hsome & Hnone); simpl.
    + lia.
    + rewrite length_insert. lia.
    + rewrite pending_insert by lia. exact Hopen.
    + lia.
    + simpl in Hsome, Hnone.
      rewrite pending_insert in Hsome, Hnone by lia.
      rewrite list_lookup_insert_ne in Hsome, Hnone by lia.
      exists ([Mem.ReadAt from; Mem.ReadAt from; Mem.WriteAt to] ++ lg).
      split; [repeat (apply Forall_cons; split; [simpl; lia|]); exact Hlg|].
      split.
      * intros e He. rewrite (Hsome e He).
        rewrite written_state by lia.
        simpl. rewrite <- ?app_assoc, <- ?Nat.add_assoc. reflexivity.
      * intros He. rewrite (Hnone He).
        rewrite written_state by lia.
        simpl. rewrite <- ?app_assoc, <- ?Nat.add_assoc. reflexivity.
Qed.

(** *** Fuel *)

Lemma loop_fuel fuel : forall len from to h,
  len - from < fuel -> fst (loop fuel len from to h) <> Mem.OutOfFuel.
Proof.
  induction fuel as [|fuel IH]; intros len from to h Hfuel; [lia|].
  simpl. destruct (Nat.ltb_spec from len); [|discriminate].
  unfold mbind, M_bind, Mem.bind, Mem.rd, Mem.wr.
  repeat (simpl;
          match goal with
          | |- context [match ?l !! ?i with _ => _ end] => destruct (l !! i)
          | |- context [(?x =? ?y)%Z] => destruct (x =? y)%Z
          | |- context [decide ?P] => destruct (decide P)
          end);
    try discriminate; apply IH; lia.
Qed.

(** The fuel that [rspUnescape] gives its loop is never used up. *)
Lemma rspUnescape_fuel len h :
  fst (Utils.rspUnescape char_is_signed len h) <> Mem.OutOfFuel.
Proof. apply loop_fuel. lia. Qed.

(** *** The whole function *)

Lemma payload_pending len h : pending len 0 (Mem.cells h) = payload len h.
Proof. unfold payload. rewrite Nat.sub_0_r. reflexivity. Qed.

(** On a payload without a dangling escape the function returns, having
    put the decoded bytes at the front of the buffer and touched nothing
    from the returned length on. *)
Lemma rspUnescape_closed len h :
  len <= length (Mem.cells h) -> open_escape (payload len h) = false ->
  exists lg,
    Utils.rspUnescape char_is_signed len h
    = (Mem.Done (length (unescaped (payload len h))),
       Mem.Heap (unescaped (payload len h)
                   ++ drop (length (unescaped (payload len h))) (Mem.cells h))
                (Mem.log h ++ lg))
    /\ Forall (fun a => Mem.index_of a < len) lg.
Proof.
  intros Hlen Hclosed. rewrite <- payload_pending in *.
  destruct (loop_closed (S len) len 0 0 h) as (lg & Hrun & Hlg);
    try assumption; try lia.
  exists lg. split; [exact Hrun|exact Hlg].
Qed.

(** On a payload that ends in a dangling escape the function reads the
    byte behind the payload. *)
Lemma rspUnescape_open len h :
  len <= length (Mem.cells h) -> open_escape (payload len h) = true ->
  exists lg,
    Forall (fun a => Mem.index_of a < len) lg
    /\ (forall d, Mem.cells h !! len = Some d ->
         let out := unescaped (payload len h) ++ [flip_bit5 d] in
         Utils.rspUnescape char_is_signed len h
         = (Mem.Done (length out),
            Mem.Heap (out ++ drop (length out) (Mem.cells h))
              (Mem.log h ++ lg
                 ++ [Mem.ReadAt (len - 1); Mem.ReadAt len;
                     Mem.WriteAt (length (unescaped (payload len h)))])))
    /\ (Mem.cells h !! len = None ->
         let out := unescaped (payload len h) in
         Utils.rspUnescape char_is_signed len h
         = (Mem.OutOfBounds len,
            Mem.Heap (out ++ drop (length out) (Mem.cells h))
              (Mem.log h ++ lg ++ [Mem.ReadAt (len - 1); Mem.ReadAt len]))).
Proof.
  intros Hlen Hopen. rewrite <- payload_pending in *.
  destruct (loop_open (S len) len 0 0 h) as (lg & Hlg & Hsome & Hnone);
    try assumption; try lia.
  exists lg. split; [exact Hlg|]. split; [exact Hsome|exact Hnone].
Qed.

End Unescape.

(** *** Decoding as a function on lists *)

Lemma escape_ind (P : list byte -> Prop) :
  P [] -> P [x7d] ->
  (forall d l, P l -> P (x7d :: d :: l)) ->
  (forall c l, is_escape c = false -> P l -> P (c :: l)) ->
  forall l, P l.
Proof.
  intros Hnil Hone Hesc Hcopy l.
  assert (H : P l /\ forall c, P (c :: l)); [|apply H].
  induction l as [|a l [IH1 IH2]].
  - split; [exact Hnil|]. intros c. destruct (is_escape c) eqn:E.
    + apply bool_decide_eq_true in E. subst c. exact Hone.
    + apply Hcopy; assumption.
  - split; [apply IH2|]. intros c. destruct (is_escape c) eqn:E.
    + apply bool_decide_eq_true in E. subst c. apply Hesc, IH1.
    + apply Hcopy; [assumption|apply IH2].
Qed.

Lemma leading_escapes_le m : (leading_escapes m <= length m)%nat.
Proof.
  induction m as [|a m IH]; simpl; [lia|]. destruct (is_escape a); lia.
Qed.

Lemma leading_escapes_snoc m c :
  leading_escapes (m ++ [c])
  = if decide (leading_escapes m = length m)
    then (if is_escape c then S (leading_escapes m) else leading_escapes m)
    else leading_escapes m.
Proof.
  induction m as [|a m IH]; simpl.
  - destruct (is_escape c); reflexivity.
  - destruct (is_escape a); [|reflexivity]. rewrite IH.
    destruct (decide (leading_escapes m = length m)) as [Hall|Hnot].
    + rewrite decide_True by lia. destruct (is_escape c); reflexivity.
    + rewrite decide_False by lia. reflexivity.
Qed.

(** A payload ends in a ['}'] that starts an escape exactly when it ends in
    an odd number of ['}'] bytes. *)
Lemma open_escape_trailing l : open_escape l = Nat.odd (trailing_escapes l).
Proof.
  unfold trailing_escapes.
  induction l as [| |d l IH|c l Hc IH] using escape_ind.
  - reflexivity.
  - reflexivity.
  - rewrite open_escape_escape, IH.
    change (rev (x7d :: d :: l)) with ((rev l ++ [d]) ++ [x7d]).
    pose proof (leading_escapes_le (rev l)) as Hle.
    rewrite (leading_escapes_snoc (rev l ++ [d])), (leading_escapes_snoc (rev l)).
    rewrite length_app. simpl length.
    destruct (decide (leading_escapes (rev l) = length (rev l))) as [Hall|Hnot].
    + destruct (is_escape d).
      * rewrite decide_True by lia. reflexivity.
      * rewrite decide_False by lia. reflexivity.
    + rewrite decide_False by lia. reflexivity.
  - rewrite open_escape_copy, IH by assumption.
    change (rev (c :: l)) with (rev l ++ [c]).
    rewrite leading_escapes_snoc, Hc.
    destruct (decide (leading_escapes (rev l) = length (rev l))); reflexivity.
Qed.

(** Each escape prefix shortens the payload by one byte. *)
Lemma unescaped_length l :
  (length (unescaped l) + escapes l = length l)%nat.
Proof.
  induction l as [| |d l IH|c l Hc IH] using escape_ind.
  - reflexivity.
  - reflexivity.
  - simpl in *. rewrite <- IH. lia.
  - rewrite unescaped_copy by assumption. simpl. rewrite Hc.
    simpl. rewrite IH. reflexivity.
Qed.

Lemma needs_escape_false c : needs_escape c = false -> is_escape c = false.
Proof. destruct c; vm_compute; congruence. Qed.

Lemma unescaped_encode b : unescaped (encode b) = b.
Proof.
  induction b as [|c b IH]; [reflexivity|].
  change (encode (c :: b))
    with ((if needs_escape c then [x7d; flip_bit5 c] else [c]) ++ encode b).
  destruct (needs_escape c) eqn:E.
  - simpl app. rewrite unescaped_escape, flip_bit5_involutive, IH. reflexivity.
  - simpl app. rewrite unescaped_copy, IH by (apply needs_escape_false, E).
    reflexivity.
Qed.

Lemma open_escape_encode b : open_escape (encode b) = false.
Proof.
  induction b as [|c b IH]; [reflexivity|].
  change (encode (c :: b))
    with ((if needs_escape c then [x7d; flip_bit5 c] else [c]) ++ encode b).
  destruct (needs_escape c) eqn:E.
  - simpl app. rewrite open_escape_escape. exact IH.
  - simpl app. rewrite open_escape_copy by (apply needs_escape_false, E).
    exact IH.
Qed.

(** * Properties stated by the specification *)

(** ** Hex rendering and parsing of register values *)

(** C1, counterexample: the round trip of the claim fails at width 1 for
    the value 256, little-endian: the text is "00" and parses to 0. *)
Lemma round_trip_width_1_drops_high_bytes :
  ~ exists buf',
      Utils.regVal2Hex 256 (replicate 3 x00) 1 true = Some buf'
      /\ Utils.hex2RegVal true buf' 1 true = Some 256.
Proof.
  intros (buf' & Hput & Hget). vm_compute in Hput.
  injection Hput as <-. vm_compute in Hget. discriminate.
Qed.

(** C1, as amended: for every [uint64_t] value [v], both endianness
    choices and every byte width [w] (so also 1, 2, 4 and 8), rendering [v]
    with [regVal2Hex] into a buffer of at least [2 * w + 1] characters and
    parsing the result with [hex2RegVal] yields [v mod 2 ^ (8 * w)], the
    [w] low-order bytes of [v]; that is [v] again exactly when
    [v < 2 ^ (8 * w)], hence for every [v] at width 8. *)
Theorem regVal2Hex_hex2RegVal_round_trip
    (char_is_signed : bool) (v : Z) (buf : list byte) (w : nat) (le : bool) :
  0 <= v < 2 ^ 64 -> (w * 2 + 1 <= length buf)%nat ->
  exists buf',
    Utils.regVal2Hex v buf w le = Some buf'
    /\ Utils.hex2RegVal char_is_signed buf' w le
       = Some (v mod 2 ^ (8 * Z.of_nat w))
    /\ (Utils.hex2RegVal char_is_signed buf' w le = Some v
        <-> v < 2 ^ (8 * Z.of_nat w))
    /\ (w = 8%nat -> Utils.hex2RegVal char_is_signed buf' w le = Some v).
Proof.
  intros Hv Hlen.
  destruct (hex_roundtrip_low_bytes char_is_signed v buf w le Hv Hlen)
    as (buf' & Hput & _ & _ & _ & Hget).
  assert (Hpow : 256 ^ Z.of_nat w = 2 ^ (8 * Z.of_nat w))
    by (change 256 with (2 ^ 8); rewrite <- Z.pow_mul_r by lia; reflexivity).
  rewrite Hpow in Hget.
  assert (Hpos : 0 < 2 ^ (8 * Z.of_nat w)) by (apply Z.pow_pos_nonneg; lia).
  exists buf'. split; [exact Hput|]. split; [exact Hget|]. split; [split|].
  - intros Hsame. rewrite Hget in Hsame. injection Hsame as Hsame.
    rewrite <- Hsame. apply Z.mod_pos_bound. exact Hpos.
  - intros Hsmall. rewrite Hget, Z.mod_small by lia. reflexivity.
  - intros ->. rewrite Hget. change (2 ^ (8 * Z.of_nat 8)) with (2 ^ 64).
    rewrite Z.mod_small by lia. reflexivity.
Qed.

Lemma regVal2Hex_hex2RegVal_round_trip_witness :
  0 <= 0x1234 < 2 ^ 64
  /\ (2 * 2 + 1 <= length (replicate 5 x00))%nat
  /\ exists buf',
       Utils.regVal2Hex 0x1234 (replicate 5 x00) 2 false = Some buf'
       /\ Utils.hex2RegVal true buf' 2 false
          = Some (0x1234 mod 2 ^ (8 * Z.of_nat 2))
       /\ (Utils.hex2RegVal true buf' 2 false = Some 0x1234
           <-> 0x1234 < 2 ^ (8 * Z.of_nat 2))
       /\ (2%nat = 8%nat -> Utils.hex2RegVal true buf' 2 false = Some 0x1234).
Proof.
  split; [lia|]. split; [simpl; lia|].
  apply (regVal2Hex_hex2RegVal_round_trip true 0x1234 (replicate 5 x00) 2 false).
  - lia.
  - simpl. lia.
Defined.

(** ** Escape decoding in place *)

(** What [rspUnescape] does on every payload that does not end in a
    dangling escape: it returns [len] minus the number of escape prefixes,
    the decoded bytes are at the front of the buffer, and the buffer is
    untouched from the returned length on. *)
Lemma rspUnescape_decodes (char_is_signed : bool) (len : nat) (h : Mem.heap) :
  (len <= length (Mem.cells h))%nat -> open_escape (payload len h) = false ->
  exists h',
    Utils.rspUnescape char_is_signed len h
    = (Mem.Done (len - escapes (payload len h))%nat, h')
    /\ take (len - escapes (payload len h)) (Mem.cells h')
       = unescaped (payload len h)
    /\ drop (len - escapes (payload len h)) (Mem.cells h')
       = drop (len - escapes (payload len h)) (Mem.cells h).
Proof.
  intros Hlen Hclosed.
  destruct (rspUnescape_closed char_is_signed len h Hlen Hclosed)
    as (lg & Hrun & _).
  pose proof (unescaped_length (payload len h)) as Hcount.
  assert (Hpay : length (payload len h) = len)
    by (unfold payload; rewrite length_take; lia).
  replace (len - escapes (payload len h))%nat
    with (length (unescaped (payload len h))) by lia.
  eexists. split; [exact Hrun|]. simpl. split.
  - rewrite take_app_length. reflexivity.
  - rewrite drop_app_length. reflexivity.
Qed.

(** C2, at the failing input: the one-byte payload ['}'] in a buffer whose
    next byte is ['A'].  The claim gives the decoded length [1 - 1 = 0];
    the function reads index 1, stores ['A' ^ 0x20 = 'a'] at index 0 and
    returns 1.  When the allocation ends with the payload, the read at
    index 1 is outside of it. *)
Theorem rspUnescape_dangling_escape (char_is_signed : bool) :
  Utils.rspUnescape char_is_signed 1 (Mem.Heap [x7d; x41] [])
  = (Mem.Done 1%nat,
     Mem.Heap [x61; x41] [Mem.ReadAt 0; Mem.ReadAt 1; Mem.WriteAt 0])
  /\ (1 - escapes (payload 1 (Mem.Heap [x7d; x41] [])) = 0)%nat
  /\ Utils.rspUnescape char_is_signed 1 (Mem.Heap [x7d] [])
     = (Mem.OutOfBounds 1, Mem.Heap [x7d] [Mem.ReadAt 0; Mem.ReadAt 1]).
Proof. destruct char_is_signed; vm_compute; auto. Qed.

(** C3: for every byte sequence [b], also with ['#'], ['$'], ['}'], ['*']
    and NUL bytes in it, escaping [b] as on send and decoding the result
    in place with [rspUnescape] returns the length of [b] and leaves
    exactly [b] at the front of the buffer, whatever follows the payload
    in the buffer. *)
Theorem rspUnescape_encode
    (char_is_signed : bool) (b rest : list byte) (lg : list Mem.access) :
  exists h',
    Utils.rspUnescape char_is_signed (length (encode b))
      (Mem.Heap (encode b ++ rest) lg)
    = (Mem.Done (length b), h')
    /\ take (length b) (Mem.cells h') = b.
Proof.
  set (h := Mem.Heap (encode b ++ rest) lg).
  assert (Hpay : payload (length (encode b)) h = encode b)
    by (unfold payload, h; simpl; apply take_app_length).
  destruct (rspUnescape_closed char_is_signed (length (encode b)) h)
    as (lg' & Hrun & _).
  - unfold h. simpl. rewrite length_app. lia.
  - rewrite Hpay. apply open_escape_encode.
  - rewrite Hpay, unescaped_encode in Hrun.
    eexists. split; [exact Hrun|]. simpl. apply take_app_length.
Qed.

(** C9: on a buffer that holds at least [len] bytes, when the payload ends
    in a ['}'] that starts an escape, [rspUnescape] reads index [len]; on
    every other payload each index it reads or writes is below [len]. *)
Theorem rspUnescape_accesses
    (char_is_signed : bool) (cells : list byte) (len : nat) :
  (len <= length cells)%nat ->
  let trace := Mem.log (snd (Utils.rspUnescape char_is_signed len (Mem.Heap cells []))) in
  (open_escape (take len cells) = true -> In (Mem.ReadAt len) trace)
  /\ (open_escape (take len cells) = false ->
      Forall (fun a => (Mem.index_of a < len)%nat) trace).
Proof.
  intros Hlen trace. subst trace. split; intros Hesc.
  - destruct (rspUnescape_open char_is_signed len (Mem.Heap cells []) Hlen Hesc)
      as (lg & _ & Hsome & Hnone). simpl in Hsome, Hnone.
    destruct (cells !! len) as [d|] eqn:Hd.
    + rewrite (Hsome d eq_refl). simpl. apply in_or_app. right. simpl. auto.
    + rewrite (Hnone eq_refl). simpl. apply in_or_app. right. simpl. auto.
  - destruct (rspUnescape_closed char_is_signed len (Mem.Heap cells []) Hlen Hesc)
      as (lg & -> & Hlg). exact Hlg.
Qed.

Lemma rspUnescape_accesses_witness :
  ((3 <= length [x61; x7d; x03; x62])%nat
   /\ Forall (fun a => (Mem.index_of a < 3)%nat)
        (Mem.log (snd (Utils.rspUnescape false 3 (Mem.Heap [x61; x7d; x03; x62] [])))))
  /\ ((2 <= length [x61; x7d; x03; x62])%nat
      /\ In (Mem.ReadAt 2)
           (Mem.log (snd (Utils.rspUnescape true 2 (Mem.Heap [x61; x7d; x03; x62] []))))).
Proof.
  split; (split; [simpl; lia|]).
  - apply (rspUnescape_accesses false [x61; x7d; x03; x62] 3).
    + simpl. lia.
    + reflexivity.
  - apply (rspUnescape_accesses true [x61; x7d; x03; x62] 2).
    + simpl. lia.
    + reflexivity.
Defined.

(** ** Hex digits *)

Lemma hex2RegVal_be_is_hex2Val_loop char_is_signed (buf : list byte) todo :
  forall n val,
    Utils.hex2RegVal_be char_is_signed todo n val buf
    = Utils.hex2Val_loop char_is_signed (todo * 2) (n * 2) val buf.
Proof.
  induction todo as [|todo IH]; intros n val; [reflexivity|].
  cbn [Utils.hex2RegVal_be]. change (S todo * 2)%nat with (S (S (todo * 2))).
  cbn [Utils.hex2Val_loop]. unfold Utils.get_pair.
  replace (n * 2 + 1)%nat with (S (n * 2)) by lia.
  destruct (buf !! (n * 2)%nat) as [hi|]; [|reflexivity]. cbn [mbind option_bind].
  destruct (buf !! S (n * 2)) as [lo|]; [|reflexivity]. cbn [mbind option_bind].
  rewrite IH. reflexivity.
Qed.

Section Callers.

Variable char_is_signed : bool.

Lemma char2Hex_digit_or_255 c :
  Utils.char2Hex (int_of_char char_is_signed c) = digit_or_255 c.
Proof. destruct char_is_signed, c; reflexivity. Qed.

Lemma digit_or_255_cases c :
  (is_hex_digit c = true -> 0 <= digit_or_255 c < 16)
  /\ (is_hex_digit c = false -> digit_or_255 c = 255).
Proof. destruct c; vm_compute; intuition congruence. Qed.

Lemma shift_in_or_in val c :
  Utils.shift_in char_is_signed val c = or_in val (digit_or_255 c).
Proof.
  unfold Utils.shift_in, or_in, u64, wrap.
  rewrite char2Hex_digit_or_255, Z.shiftl_mul_pow2 by lia. reflexivity.
Qed.

Lemma hex2Val_loop_or_in (buf : list byte) todo : forall i val,
  (i + todo <= length buf)%nat ->
  Utils.hex2Val_loop char_is_signed todo i val buf
  = Some (foldl or_in val (digit_or_255 <$> take todo (drop i buf))).
Proof.
  induction todo as [|todo IH]; intros i val Hlen; [reflexivity|].
  destruct (lookup_lt_is_Some_2 buf i ltac:(lia)) as [c Hc].
  rewrite (drop_S _ c) by assumption. simpl take. rewrite fmap_cons.
  cbn [foldl Utils.hex2Val_loop]. rewrite Hc. cbn [mbind option_bind].
  rewrite shift_in_or_in. apply IH. lia.
Qed.

Lemma hex2RegVal_le_or_in (buf : list byte) n : forall val,
  (n * 2 <= length buf)%nat ->
  Utils.hex2RegVal_le char_is_signed n val buf
  = Some (foldl or_in val (digit_or_255 <$> little_endian_order n buf)).
Proof.
  induction n as [|n IH]; intros val Hlen; [reflexivity|].
  destruct (lookup_lt_is_Some_2 buf (n * 2) ltac:(lia)) as [hi Hhi].
  destruct (lookup_lt_is_Some_2 buf (S (n * 2)) ltac:(lia)) as [lo Hlo].
  cbn [Utils.hex2RegVal_le little_endian_order]. unfold Utils.get_pair.
  replace (n * 2 + 1)%nat with (S (n * 2)) by lia.
  rewrite Hhi, Hlo. cbn [mbind option_bind].
  rewrite (drop_S _ hi (n * 2)), (drop_S _ lo (S (n * 2))) by assumption.
  cbn [take]. rewrite take_0. cbn [app]. rewrite !fmap_cons. cbn [foldl].
  rewrite !shift_in_or_in. apply IH. lia.
Qed.

End Callers.

(** A value that is ored in stays: the bits that [255] sets are set in
    the end, four places higher for every value that follows. *)
Lemma or_in_moves_bit val d n :
  0 <= n -> n + 4 < 64 -> Z.testbit val n = true ->
  Z.testbit (or_in val d) (n + 4) = true.
Proof.
  intros Hn Hlt Hbit. unfold or_in. rewrite Z.lor_spec.
  rewrite Z.mod_pow2_bits_low by lia. change 16 with (2 ^ 4).
  rewrite (Z.add_comm n 4), Z.mul_pow2_bits_add by lia. rewrite Hbit. reflexivity.
Qed.

Lemma foldl_or_in_keeps_bit post : forall val n,
  0 <= n -> n + 4 * Z.of_nat (length post) < 64 -> Z.testbit val n = true ->
  Z.testbit (foldl or_in val post) (n + 4 * Z.of_nat (length post)) = true.
Proof.
  induction post as [|d post IH]; intros val n Hn Hlt Hbit.
  - simpl. rewrite Z.add_0_r. exact Hbit.
  - cbn [foldl]. change (length (d :: post)) with (S (length post)) in *.
    rewrite Nat2Z.inj_succ in *.
    replace (n + 4 * Z.succ (Z.of_nat (length post)))
      with (n + 4 + 4 * Z.of_nat (length post)) by lia.
    apply IH; [lia|lia|]. apply or_in_moves_bit; [lia|lia|exact Hbit].
Qed.

Lemma or_in_255_bits val n : 0 <= n < 8 -> Z.testbit (or_in val 255) n = true.
Proof.
  intros Hn. unfold or_in. rewrite Z.lor_spec. change 255 with (Z.ones 8).
  rewrite Z.ones_spec_low by lia. apply orb_true_r.
Qed.

(** C10: [char2Hex] returns the value of a hex digit, [0 .. 15], for the
    characters '0'-'9', 'a'-'f' and 'A'-'F', and 255 (the [-1] of the source
    in a [uint8_t]) for every other [int].  So do its callers get 255 for
    a bad digit and no error: on every buffer that holds the characters,
    [hex2Val] and [hex2RegVal] (either endianness) return the value that
    is left when the characters read, each a digit value or 255, have gone
    through [val = (val << 4) | d]; and wherever a character that is no
    hex digit stands, with [k] characters read after it, the bits
    [4 * k .. 4 * k + 7] of the result that are below 64 are all set. *)
Theorem char2Hex_values (char_is_signed : bool) :
  (forall c, 48 <= c <= 57 -> Utils.char2Hex c = c - 48)
  /\ (forall c, 97 <= c <= 102 -> Utils.char2Hex c = c - 97 + 10)
  /\ (forall c, 65 <= c <= 70 -> Utils.char2Hex c = c - 65 + 10)
  /\ (forall c, ~ 48 <= c <= 57 -> ~ 97 <= c <= 102 -> ~ 65 <= c <= 70 ->
       Utils.char2Hex c = 255)
  /\ (forall (c : byte) val,
       Utils.char2Hex (int_of_char char_is_signed c) = 255 ->
       Utils.shift_in char_is_signed val c = Z.lor (u64 (Z.shiftl val 4)) 255)
  /\ (forall c : byte,
       Utils.char2Hex (int_of_char char_is_signed c) = digit_or_255 c
       /\ (is_hex_digit c = true -> 0 <= digit_or_255 c < 16)
       /\ (is_hex_digit c = false -> digit_or_255 c = 255))
  /\ (forall (buf : list byte) len,
       (len <= length buf)%nat ->
       Utils.hex2Val char_is_signed buf len
       = Some (or_in_all (digit_or_255 <$> take len buf)))
  /\ (forall (buf : list byte) numBytes,
       (numBytes * 2 <= length buf)%nat ->
       Utils.hex2RegVal char_is_signed buf numBytes false
       = Some (or_in_all (digit_or_255 <$> take (numBytes * 2) buf))
       /\ Utils.hex2RegVal char_is_signed buf numBytes true
          = Some (or_in_all (digit_or_255 <$> little_endian_order numBytes buf)))
  /\ (forall (before after : list byte) (c : byte) n,
       is_hex_digit c = false ->
       4 * Z.of_nat (length after) <= n < 4 * Z.of_nat (length after) + 8 ->
       n < 64 ->
       Z.testbit (or_in_all (digit_or_255 <$> before ++ c :: after)) n = true).
Proof.
  assert (Hwrap : forall x, 0 <= x < 16 -> u8 x = x)
    by (intros x Hx; apply Z.mod_small; change (2 ^ 8) with 256; lia).
  split; [|split; [|split; [|split; [|split; [|split; [|split; [|split]]]]]]].
  - intros c Hc. unfold Utils.char2Hex.
    destruct (Z.leb_spec 97 c), (Z.leb_spec c 102); simpl; try lia.
    all: destruct (Z.leb_spec 48 c), (Z.leb_spec c 57); simpl; try lia.
    all: apply Hwrap; lia.
  - intros c Hc. unfold Utils.char2Hex.
    destruct (Z.leb_spec 97 c), (Z.leb_spec c 102); simpl; try lia.
    apply Hwrap; lia.
  - intros c Hc. unfold Utils.char2Hex.
    destruct (Z.leb_spec 97 c), (Z.leb_spec c 102); simpl; try lia.
    all: destruct (Z.leb_spec 48 c), (Z.leb_spec c 57); simpl; try lia.
    all: destruct (Z.leb_spec 65 c), (Z.leb_spec c 70); simpl; try lia.
    all: apply Hwrap; lia.
  - intros c H1 H2 H3. unfold Utils.char2Hex.
    destruct (Z.leb_spec 97 c), (Z.leb_spec c 102); simpl; try lia.
    all: destruct (Z.leb_spec 48 c), (Z.leb_spec c 57); simpl; try lia.
    all: destruct (Z.leb_spec 65 c), (Z.leb_spec c 70); simpl; try lia.
    all: reflexivity.
  - intros c val Hc. unfold Utils.shift_in. rewrite Hc. reflexivity.
  - intros c. split; [apply char2Hex_digit_or_255|apply digit_or_255_cases].
  - intros buf len Hlen. unfold Utils.hex2Val, or_in_all.
    apply (hex2Val_loop_or_in char_is_signed buf len 0 0). lia.
  - intros buf w Hlen. unfold Utils.hex2RegVal, or_in_all. split.
    + rewrite hex2RegVal_be_is_hex2Val_loop.
      apply (hex2Val_loop_or_in char_is_signed buf (w * 2) 0 0). lia.
    + apply hex2RegVal_le_or_in, Hlen.
  - intros before after c n Hc Hn Hlt. unfold or_in_all.
    rewrite fmap_app, fmap_cons, foldl_app. cbn [foldl].
    rewrite (proj2 (digit_or_255_cases c) Hc).
    replace n with (n - 4 * Z.of_nat (length after)
                    + 4 * Z.of_nat (length (digit_or_255 <$> after)))
      by (rewrite length_fmap; lia).
    apply foldl_or_in_keeps_bit; [lia|rewrite length_fmap; lia|].
    apply or_in_255_bits. lia.
Qed.

Lemma char2Hex_values_witness :
  Utils.char2Hex 0x67 = 255
  /\ Utils.char2Hex 0x46 = 15
  /\ Utils.hex2Val true (list_byte_of_string "1g2") 3
     = Some (or_in_all (digit_or_255 <$> take 3 (list_byte_of_string "1g2")))
  /\ Utils.hex2RegVal true (list_byte_of_string "1g2z") 2 true
     = Some (or_in_all (digit_or_255 <$> little_endian_order 2 (list_byte_of_string "1g2z")))
  /\ Z.testbit
       (or_in_all (digit_or_255 <$> list_byte_of_string "1" ++ x67 :: list_byte_of_string "2"))
       11 = true.
Proof.
  pose proof (char2Hex_values true)
    as (_ & _ & Hupper & Hbad & _ & _ & Hval & Hreg & Hbits).
  split; [apply Hbad; lia|]. split; [apply Hupper; lia|].
  split; [apply Hval; simpl; lia|].
  split; [apply (Hreg (list_byte_of_string "1g2z") 2%nat); simpl; lia|].
  apply Hbits; [reflexivity|simpl; lia|lia].
Defined.

Example hex2Val_bad_digit :
  Utils.hex2Val true (list_byte_of_string "1g") 2 = Some 0xff
  /\ Utils.hex2RegVal false (list_byte_of_string "zz") 1 true = Some 0xfff.
Proof. split; reflexivity. Qed.

(** ** Per-core state *)

Import GdbServer.

Lemma stop_is_pending_new : CoreManager.stop_is_pending CoreManager.CoreState_new.
Proof. intros H. discriminate. Qed.

Lemma stop_is_pending_call m s :
  CoreManager.stop_is_pending s -> CoreManager.stop_is_pending (CoreManager.call m s).
Proof.
  unfold CoreManager.stop_is_pending. intros Hs. destruct m as [| |res|type]; simpl.
  - exact Hs.
  - discriminate.
  - intros Hrep. apply bool_decide_eq_false in Hrep. exact Hrep.
  - exact Hs.
Qed.

(** C4: after [setStopReason(res)] on any core state, the core has an
    unreported stop iff [res] is not NONE; and in every state that a
    [CoreState] object can get into, [mStopReported = false] comes with a
    recorded stop reason other than NONE. *)
Theorem setStopReason_unreported_stop :
  (forall res s,
     CoreManager.hasUnreportedStop (CoreManager.setStopReason res s) = true
     <-> res <> ITarget.ResumeRes.NONE)
  /\ (forall res s,
       CoreManager.mStopReported (CoreManager.setStopReason res s) = false ->
       CoreManager.stopReason (CoreManager.setStopReason res s)
       <> ITarget.ResumeRes.NONE)
  /\ (forall calls,
       CoreManager.stop_is_pending
         (foldl (fun s m => CoreManager.call m s) CoreManager.CoreState_new calls)).
Proof.
  split; [|split].
  - intros res s. unfold CoreManager.hasUnreportedStop. simpl.
    rewrite negb_true_iff, bool_decide_eq_false. reflexivity.
  - intros res s. simpl. rewrite bool_decide_eq_false. auto.
  - intros calls. generalize stop_is_pending_new.
    generalize CoreManager.CoreState_new.
    induction calls as [|m calls IH]; intros s Hs; simpl; [exact Hs|].
    apply IH, stop_is_pending_call, Hs.
Qed.

Lemma setStopReason_unreported_stop_witness :
  CoreManager.hasUnreportedStop
    (CoreManager.setStopReason ITarget.ResumeRes.BREAKPOINT CoreManager.CoreState_new)
  = true
  /\ CoreManager.stopReason
       (CoreManager.setStopReason ITarget.ResumeRes.BREAKPOINT CoreManager.CoreState_new)
     <> ITarget.ResumeRes.NONE.
Proof.
  pose proof setStopReason_unreported_stop as (Hiff & Hreason & _).
  split.
  - apply Hiff. discriminate.
  - apply Hreason. reflexivity.
Defined.

(** C5: a freshly constructed [CoreState] is live, has no unreported stop
    ([mStopReported] is true) and is not running (its resume type is
    NONE). *)
Theorem CoreState_new_state :
  CoreManager.isLive CoreManager.CoreState_new = true
  /\ CoreManager.mStopReported CoreManager.CoreState_new = true
  /\ CoreManager.hasUnreportedStop CoreManager.CoreState_new = false
  /\ CoreManager.mResumeType CoreManager.CoreState_new = ITarget.ResumeType.NONE
  /\ CoreManager.isRunning CoreManager.CoreState_new = false.
Proof. repeat split. Qed.

(** ** Core manager *)

Lemma new_well_formed count : CoreManager.well_formed (CoreManager.new count).
Proof. unfold CoreManager.well_formed. simpl. apply length_replicate. Qed.

(** C6: [operator[]] with an index at or above the number of cores fails
    its assertion; with an index below it, on a manager that holds one
    state per core, it returns the state stored for that index, and
    neither the assertion nor the vector access fails. *)
Theorem CoreManager_index (cm : CoreManager.t) (idx : nat) :
  ((CoreManager.mNumCores cm <= idx)%nat ->
   CoreManager.index cm idx = CoreManager.AssertionFailed)
  /\ (CoreManager.well_formed cm -> (idx < CoreManager.mNumCores cm)%nat ->
      exists c, CoreManager.mCoreStates cm !! idx = Some c
                /\ CoreManager.index cm idx = CoreManager.Element c).
Proof.
  unfold CoreManager.index, CoreManager.well_formed. split.
  - intros Hge. rewrite decide_False by lia. reflexivity.
  - intros Hwf Hlt. rewrite decide_True by assumption.
    destruct (lookup_lt_is_Some_2 (CoreManager.mCoreStates cm) idx ltac:(lia))
      as [c Hc].
    exists c. rewrite Hc. auto.
Qed.

Lemma CoreManager_index_witness :
  CoreManager.index (CoreManager.new 2) 2 = CoreManager.AssertionFailed
  /\ exists c, CoreManager.mCoreStates (CoreManager.new 2) !! 1%nat = Some c
               /\ CoreManager.index (CoreManager.new 2) 1 = CoreManager.Element c.
Proof.
  split.
  - apply (CoreManager_index (CoreManager.new 2) 2). simpl. lia.
  - apply (CoreManager_index (CoreManager.new 2) 1).
    + reflexivity.
    + simpl. lia.
Defined.

(** C8: [pid2CoreNum(pid)] is [pid - 1] and [coreNum2Pid(coreNum)] is
    [coreNum + 1] in [unsigned int] arithmetic, exactly so for every PID of
    at least 1 and for every core index (an index is below a count that is
    itself an [unsigned int]); the two functions are inverse to each other
    on every PID of at least 1 and on every core index. *)
Theorem pid_coreNum_inverse (p n : Z) :
  1 <= p < 2 ^ 32 -> 0 <= n < 2 ^ 32 ->
  CoreManager.pid2CoreNum p = p - 1
  /\ CoreManager.coreNum2Pid n = (n + 1) mod 2 ^ 32
  /\ (n < 2 ^ 32 - 1 -> CoreManager.coreNum2Pid n = n + 1)
  /\ CoreManager.coreNum2Pid (CoreManager.pid2CoreNum p) = p
  /\ CoreManager.pid2CoreNum (CoreManager.coreNum2Pid n) = n.
Proof.
  intros Hp Hn. unfold CoreManager.pid2CoreNum, CoreManager.coreNum2Pid, u32, wrap.
  split; [apply Z.mod_small; lia|]. split; [reflexivity|].
  split; [intros Hlt; apply Z.mod_small; lia|]. split.
  - rewrite (Z.mod_small (p - 1)) by lia.
    replace (p - 1 + 1) with p by lia. apply Z.mod_small. lia.
  - destruct (Z.eq_dec n (2 ^ 32 - 1)) as [->|Hne]; [reflexivity|].
    rewrite (Z.mod_small (n + 1)) by lia.
    replace (n + 1 - 1) with n by lia. apply Z.mod_small. lia.
Qed.

Lemma pid_coreNum_inverse_witness :
  1 <= 1 < 2 ^ 32 /\ 0 <= 0 < 2 ^ 32
  /\ CoreManager.pid2CoreNum 1 = 1 - 1
  /\ CoreManager.coreNum2Pid 0 = (0 + 1) mod 2 ^ 32
  /\ (0 < 2 ^ 32 - 1 -> CoreManager.coreNum2Pid 0 = 0 + 1)
  /\ CoreManager.coreNum2Pid (CoreManager.pid2CoreNum 1) = 1
  /\ CoreManager.pid2CoreNum (CoreManager.coreNum2Pid 0) = 0.
Proof.
  split; [lia|]. split; [lia|]. apply (pid_coreNum_inverse 1 0); lia.
Defined.

(** ** Packet capacity *)

(** C7: [RSP_PKT_SIZE] is [2 * RISCV_NUM_REG_BYTES + 1] whenever that
    exceeds 256, which with registers of 4 bytes is [2 * 33 * 4 + 1 = 265];
    whatever the register size, it is at least 256 and at least
    [2 * RISCV_NUM_REG_BYTES + 1]. *)
Theorem RSP_PKT_SIZE_capacity :
  RSP_PKT_SIZE sizeof_uint_reg_t = 2 * RISCV_NUM_REG_BYTES sizeof_uint_reg_t + 1
  /\ RSP_PKT_SIZE sizeof_uint_reg_t = 265
  /\ forall size,
       (256 < 2 * RISCV_NUM_REG_BYTES size + 1 ->
        RSP_PKT_SIZE size = 2 * RISCV_NUM_REG_BYTES size + 1)
       /\ 256 <= RSP_PKT_SIZE size
       /\ 2 * RISCV_NUM_REG_BYTES size + 1 <= RSP_PKT_SIZE size.
Proof.
  split; [reflexivity|]. split; [reflexivity|].
  intros size. unfold RSP_PKT_SIZE.
  destruct (Z.ltb_spec (RISCV_NUM_REG_BYTES size * 2 + 1) 256); lia.
Qed.

Lemma RSP_PKT_SIZE_capacity_witness :
  256 < 2 * RISCV_NUM_REG_BYTES 8 + 1
  /\ RSP_PKT_SIZE 8 = 2 * RISCV_NUM_REG_BYTES 8 + 1.
Proof.
  split; [reflexivity|].
  apply (proj2 (proj2 RSP_PKT_SIZE_capacity) 8). reflexivity.
Defined.

(** ** Scenarios of the specification *)

(** The binary payload of scenario (e): the four bytes [} 03 } 04] decode
    to [23 24]. *)
Example unescape_binary_write :
  fst (Utils.rspUnescape true 4 (Mem.Heap [x7d; x03; x7d; x04] []))
  = Mem.Done 2%nat
  /\ take 2 (Mem.cells (snd (Utils.rspUnescape true 4 (Mem.Heap [x7d; x03; x7d; x04] []))))
     = [x23; x24].
Proof. split; reflexivity. Qed.

(** Scenario (d): the value 0xefbeadde is the little-endian reading of the
    text "deadbeef". *)
Example regVal2Hex_little_endian :
  Utils.regVal2Hex 0xefbeadde (replicate 9 x00) 4 true
  = Some (list_byte_of_string "deadbeef" ++ [x00])
  /\ Utils.hex2RegVal false (list_byte_of_string "deadbeef") 4 true
     = Some 0xefbeadde
  /\ Utils.hex2RegVal false (list_byte_of_string "deadbeef") 4 false
     = Some 0xdeadbeef.
Proof. repeat split; reflexivity. Qed.

(** * Further properties of the code *)

(** ** [CoreState] *)

(** A core that was killed stays dead whatever is called on it afterwards,
    and a constructed core is live exactly as long as [killCore] has not
    been called: no member function sets [mIsLive] back. *)
Theorem killCore_is_final (ms : list CoreManager.method) (s : CoreManager.CoreState) :
  CoreManager.isLive (CoreManager.calls ms (CoreManager.killCore s)) = false
  /\ (CoreManager.isLive (CoreManager.calls ms CoreManager.CoreState_new) = true
      <-> ~ In CoreManager.KillCore ms).
Proof.
  unfold CoreManager.calls. split.
  - generalize (CoreManager.killCore s), (eq_refl : CoreManager.isLive (CoreManager.killCore s) = false).
    induction ms as [|m ms IH]; intros s0 Hs0; simpl; [exact Hs0|].
    apply IH. destruct m; simpl; auto.
  - assert (Hgen : forall s0,
      CoreManager.isLive (foldl (fun s m => CoreManager.call m s) s0 ms) = true
      <-> CoreManager.isLive s0 = true /\ ~ In CoreManager.KillCore ms).
    { induction ms as [|m ms IH]; intros s0; simpl; [tauto|].
      rewrite IH. destruct m; simpl; unfold CoreManager.isLive; simpl;
        intuition congruence. }
    rewrite Hgen. simpl. tauto.
Qed.

(** The stop state is that of the last call that assigns it: after
    [setStopReason(res)] and any calls that assign other members, the
    recorded reason is [res] and the stop is unreported iff [res] is not
    NONE; after [reportStopReason()] and such calls nothing is unreported
    and the reason is the one recorded before. *)
Theorem stop_state_last_call
    (res : ITarget.ResumeRes.t) (ms : list CoreManager.method)
    (s : CoreManager.CoreState) :
  (forall m, In m ms -> CoreManager.assigns m <> CoreManager.StopMembers) ->
  CoreManager.stopReason (CoreManager.calls ms (CoreManager.setStopReason res s)) = res
  /\ CoreManager.hasUnreportedStop (CoreManager.calls ms (CoreManager.setStopReason res s))
     = bool_decide (res <> ITarget.ResumeRes.NONE)
  /\ CoreManager.stopReason (CoreManager.calls ms (CoreManager.reportStopReason s))
     = CoreManager.stopReason s
  /\ CoreManager.hasUnreportedStop (CoreManager.calls ms (CoreManager.reportStopReason s))
     = false.
Proof.
  intros Hms.
  assert (Hkeep : forall s0,
    CoreManager.stopReason (CoreManager.calls ms s0) = CoreManager.stopReason s0
    /\ CoreManager.hasUnreportedStop (CoreManager.calls ms s0)
       = CoreManager.hasUnreportedStop s0).
  { unfold CoreManager.calls. induction ms as [|m ms IH]; intros s0; simpl; [auto|].
    destruct (IH (fun m' Hm' => Hms m' (or_intror Hm')) (CoreManager.call m s0))
      as [-> ->].
    specialize (Hms m (or_introl eq_refl)).
    destruct m; simpl in Hms; try congruence; auto. }
  destruct (Hkeep (CoreManager.setStopReason res s)) as [-> ->].
  destruct (Hkeep (CoreManager.reportStopReason s)) as [-> ->].
  repeat split. destruct res; reflexivity.
Qed.

Lemma stop_state_last_call_witness :
  CoreManager.stopReason
    (CoreManager.calls [CoreManager.SetResumeType ITarget.ResumeType.NONE]
       (CoreManager.setStopReason ITarget.ResumeRes.TIMEOUT CoreManager.CoreState_new))
  = ITarget.ResumeRes.TIMEOUT
  /\ CoreManager.hasUnreportedStop
       (CoreManager.calls [CoreManager.SetResumeType ITarget.ResumeType.NONE]
          (CoreManager.setStopReason ITarget.ResumeRes.TIMEOUT CoreManager.CoreState_new))
     = true.
Proof.
  destruct (stop_state_last_call ITarget.ResumeRes.TIMEOUT
              [CoreManager.SetResumeType ITarget.ResumeType.NONE]
              CoreManager.CoreState_new) as (Hreason & Hstop & _).
  - intros m [<-|[]]. simpl. discriminate.
  - split; [exact Hreason|exact Hstop].
Defined.

(** Member functions that assign different members of the state commute. *)
Theorem calls_on_different_members_commute
    (m1 m2 : CoreManager.method) (s : CoreManager.CoreState) :
  CoreManager.assigns m1 <> CoreManager.assigns m2 ->
  CoreManager.call m1 (CoreManager.call m2 s)
  = CoreManager.call m2 (CoreManager.call m1 s).
Proof.
  destruct m1, m2; simpl; intros Hne; try reflexivity; congruence.
Qed.

Lemma calls_on_different_members_commute_witness :
  CoreManager.call CoreManager.KillCore
    (CoreManager.call (CoreManager.SetStopReason ITarget.ResumeRes.BREAKPOINT)
       CoreManager.CoreState_new)
  = CoreManager.call (CoreManager.SetStopReason ITarget.ResumeRes.BREAKPOINT)
      (CoreManager.call CoreManager.KillCore CoreManager.CoreState_new).
Proof.
  apply (calls_on_different_members_commute CoreManager.KillCore
           (CoreManager.SetStopReason ITarget.ResumeRes.BREAKPOINT)).
  simpl. discriminate.
Defined.

(** Whether a core runs depends on the last [setResumeType] alone: after a
    run of calls that ends with the calls [ms] of which none is
    [setResumeType], the core runs iff the type set before them is not
    NONE. *)
Theorem isRunning_last_resume_type
    (type : ITarget.ResumeType.t) (ms : list CoreManager.method)
    (s : CoreManager.CoreState) :
  (forall t, ~ In (CoreManager.SetResumeType t) ms) ->
  CoreManager.isRunning (CoreManager.calls ms (CoreManager.setResumeType type s))
  = bool_decide (type <> ITarget.ResumeType.NONE).
Proof.
  unfold CoreManager.calls.
  change (bool_decide (type <> ITarget.ResumeType.NONE))
    with (CoreManager.isRunning (CoreManager.setResumeType type s)).
  generalize (CoreManager.setResumeType type s).
  induction ms as [|m ms IH]; intros s0 Hno; simpl; [reflexivity|].
  rewrite IH by (intros t Ht; apply (Hno t); right; exact Ht).
  destruct m as [| | |t]; try reflexivity.
  exfalso. apply (Hno t). left. reflexivity.
Qed.

Lemma isRunning_last_resume_type_witness :
  CoreManager.isRunning
    (CoreManager.calls
       [CoreManager.SetStopReason ITarget.ResumeRes.STEPPED; CoreManager.KillCore]
       (CoreManager.setResumeType ITarget.ResumeType.STEP CoreManager.CoreState_new))
  = bool_decide (ITarget.ResumeType.STEP <> ITarget.ResumeType.NONE).
Proof.
  apply (isRunning_last_resume_type ITarget.ResumeType.STEP
           [CoreManager.SetStopReason ITarget.ResumeRes.STEPPED; CoreManager.KillCore]).
  intros t [H|[H|[]]]; discriminate H.
Defined.

(** ** [CoreManager] *)

(** [isCoreLive] and [operator[]] agree on the indices of cores; at and
    above the core count [operator[]] stops at its assertion, whereas
    [isCoreLive] indexes the vector outside of its bounds. *)
Theorem isCoreLive_index (cm : CoreManager.t) (coreNum : nat) :
  CoreManager.well_formed cm ->
  ((coreNum < CoreManager.getCpuCount cm)%nat ->
   exists c, CoreManager.index cm coreNum = CoreManager.Element c
             /\ CoreManager.isCoreLive cm coreNum = Some (CoreManager.isLive c))
  /\ ((CoreManager.getCpuCount cm <= coreNum)%nat ->
      CoreManager.index cm coreNum = CoreManager.AssertionFailed
      /\ CoreManager.isCoreLive cm coreNum = None).
Proof.
  unfold CoreManager.well_formed, CoreManager.getCpuCount, CoreManager.index,
    CoreManager.isCoreLive.
  intros Hwf. split; intros Hidx.
  - destruct (lookup_lt_is_Some_2 (CoreManager.mCoreStates cm) coreNum ltac:(lia))
      as [c Hc].
    exists c. rewrite decide_True, Hc by lia. auto.
  - rewrite decide_False by lia. rewrite (lookup_ge_None_2 _ coreNum) by lia. auto.
Qed.

Lemma isCoreLive_index_witness :
  (exists c, CoreManager.index (CoreManager.new 3) 2 = CoreManager.Element c
             /\ CoreManager.isCoreLive (CoreManager.new 3) 2 = Some (CoreManager.isLive c))
  /\ CoreManager.index (CoreManager.new 3) 3 = CoreManager.AssertionFailed
  /\ CoreManager.isCoreLive (CoreManager.new 3) 3 = None.
Proof.
  pose proof (isCoreLive_index (CoreManager.new 3) 2 (new_well_formed 3)) as [Hin _].
  pose proof (isCoreLive_index (CoreManager.new 3) 3 (new_well_formed 3)) as [_ Hout].
  split; [apply Hin; simpl; lia|apply Hout; simpl; lia].
Defined.

(** The PIDs [1 .. count] are the ones whose core index [operator[]]
    accepts: for such a PID, [cm[pid2CoreNum(pid)]] is the state of core
    [pid - 1]; for PID 0 ("any") and for every PID above the count the
    assertion fails.  The default PID names core 0. *)
Theorem pid2CoreNum_index (cm : CoreManager.t) (pid : Z) :
  CoreManager.well_formed cm ->
  Z.of_nat (CoreManager.getCpuCount cm) < 2 ^ 32 -> 0 <= pid < 2 ^ 32 ->
  (1 <= pid <= Z.of_nat (CoreManager.getCpuCount cm) ->
   exists c, CoreManager.mCoreStates cm !! Z.to_nat (pid - 1) = Some c
             /\ CoreManager.index cm (Z.to_nat (CoreManager.pid2CoreNum pid))
                = CoreManager.Element c)
  /\ (pid = 0 \/ Z.of_nat (CoreManager.getCpuCount cm) < pid ->
      CoreManager.index cm (Z.to_nat (CoreManager.pid2CoreNum pid))
      = CoreManager.AssertionFailed)
  /\ CoreManager.pid2CoreNum PID_DEFAULT = 0.
Proof.
  unfold CoreManager.getCpuCount, CoreManager.well_formed, CoreManager.index.
  intros Hwf Hcount Hpid.
  split; [|split; [|reflexivity]].
  - intros Hin.
    assert (Heq : CoreManager.pid2CoreNum pid = pid - 1)
      by (apply Z.mod_small; lia).
    rewrite Heq, decide_True by lia.
    destruct (lookup_lt_is_Some_2 (CoreManager.mCoreStates cm)
                (Z.to_nat (pid - 1)) ltac:(lia)) as [c Hc].
    exists c. rewrite Hc. auto.
  - intros Hout. apply decide_False.
    unfold CoreManager.pid2CoreNum, u32, wrap.
    destruct Hout as [->|Hgt].
    + change ((0 - 1) mod 2 ^ 32) with (2 ^ 32 - 1). lia.
    + rewrite Z.mod_small by lia. lia.
Qed.

Lemma pid2CoreNum_index_witness :
  (exists c, CoreManager.mCoreStates (CoreManager.new 2) !! Z.to_nat (2 - 1) = Some c
             /\ CoreManager.index (CoreManager.new 2)
                  (Z.to_nat (CoreManager.pid2CoreNum 2))
                = CoreManager.Element c)
  /\ CoreManager.index (CoreManager.new 2) (Z.to_nat (CoreManager.pid2CoreNum 0))
     = CoreManager.AssertionFailed.
Proof.
  split.
  - apply (pid2CoreNum_index (CoreManager.new 2) 2 (new_well_formed 2)); simpl; lia.
  - apply (pid2CoreNum_index (CoreManager.new 2) 0 (new_well_formed 2)); simpl; lia.
Defined.

(** ** Hex digits and hex numerals *)

(** [hex2Char] after [char2Hex] puts a hex digit character into lower
    case, and gives NUL for every character that is no hex digit. *)
Theorem hex2Char_char2Hex (char_is_signed : bool) (c : byte) :
  Utils.hex2Char (Utils.char2Hex (int_of_char char_is_signed c))
  = if is_hex_digit c then lower_case c else x00.
Proof. destruct char_is_signed, c; reflexivity. Qed.

(** [hex2Char] gives a lower-case hex digit, of which [char2Hex] is the
    value, for [0 .. 15], and NUL for every other [uint8_t]. *)
Theorem hex2Char_values (char_is_signed : bool) (d : Z) :
  0 <= d < 256 ->
  if d <? 16
  then is_hex_digit (Utils.hex2Char d) = true
       /\ lower_case (Utils.hex2Char d) = Utils.hex2Char d
       /\ Utils.char2Hex (int_of_char char_is_signed (Utils.hex2Char d)) = d
  else Utils.hex2Char d = x00.
Proof.
  intros Hd. revert d Hd. apply Z_below_cases with (n := 256%nat).
  intros k Hk. destruct char_is_signed.
  - do 256 (destruct k as [|k]; [vm_compute; auto|]). lia.
  - do 256 (destruct k as [|k]; [vm_compute; auto|]). lia.
Qed.

Lemma hex2Char_values_witness :
  0 <= 11 < 256
  /\ is_hex_digit (Utils.hex2Char 11) = true
  /\ lower_case (Utils.hex2Char 11) = Utils.hex2Char 11
  /\ Utils.char2Hex (int_of_char true (Utils.hex2Char 11)) = 11.
Proof.
  split; [lia|]. apply (hex2Char_values true 11). lia.
Defined.

Section HexNumerals.

Variable char_is_signed : bool.

Local Abbreviation digit_of c := (Utils.char2Hex (int_of_char char_is_signed c)).

Lemma hex_digit_value c : is_hex_digit c = true -> 0 <= digit_of c < 16.
Proof. destruct char_is_signed, c; vm_compute; intuition congruence. Qed.

Lemma isxdigit_char c x :
  Utils.isxdigit (int_of_char char_is_signed c) = Some x -> x = is_hex_digit c.
Proof. destruct char_is_signed, c; vm_compute; congruence. Qed.

Lemma isxdigit_defined c :
  char_is_signed = false \/ bits_of_char c < 128 ->
  Utils.isxdigit (int_of_char char_is_signed c) = Some (is_hex_digit c).
Proof.
  intros [->|Hc].
  - destruct c; reflexivity.
  - destruct char_is_signed, c; try reflexivity; vm_compute in Hc; discriminate.
Qed.

(** Shifting in any character whose [char2Hex] is a digit value. *)
Lemma shift_in_small val c :
  0 <= digit_of c < 16 ->
  Utils.shift_in char_is_signed val c = u64 (val * 16 + digit_of c).
Proof.
  intros Hd. unfold Utils.shift_in.
  rewrite u64_shift4, lor_digit by assumption.
  unfold u64, wrap. change (2 ^ 64) with (2 ^ 60 * 16).
  pose proof (Z.mod_pos_bound val (2 ^ 60) ltac:(lia)) as Hr.
  apply Z.mod_unique with (q := val / 2 ^ 60); [lia|].
  pose proof (Z.div_mod val (2 ^ 60) ltac:(lia)). lia.
Qed.

Lemma hex_value_step acc ds :
  foldl (fun a d => a * 16 + d) acc ds
  = acc * 16 ^ Z.of_nat (length ds) + hex_value ds.
Proof.
  unfold hex_value. revert acc.
  induction ds as [|d ds IH]; intros acc; simpl foldl.
  - simpl. lia.
  - rewrite IH, (IH (0 * 16 + d)).
    change (length (d :: ds)) with (S (length ds)).
    rewrite Nat2Z.inj_succ, Z.pow_succ_r by lia. ring.
Qed.

Lemma hex_value_range ds :
  Forall (fun d => 0 <= d < 16) ds -> 0 <= hex_value ds < 16 ^ Z.of_nat (length ds).
Proof.
  induction ds as [|d ds IH] using rev_ind; intros Hds.
  - simpl. unfold hex_value. simpl. lia.
  - apply Forall_app in Hds as [Hds Hd]. apply Forall_inv in Hd.
    specialize (IH Hds). unfold hex_value in *. rewrite foldl_app. simpl.
    rewrite length_app, Nat2Z.inj_add. simpl length.
    rewrite Z.pow_add_r by lia. change (16 ^ Z.of_nat 1) with 16.
    cbv beta in *. lia.
Qed.

Lemma hex2Val_loop_value (buf : list byte) todo : forall i val,
  (i + todo <= length buf)%nat ->
  Forall (fun c => is_hex_digit c = true) (take todo (drop i buf)) ->
  Utils.hex2Val_loop char_is_signed todo i (u64 val) buf
  = Some (u64 (foldl (fun a d => a * 16 + d) val
                 ((fun c => digit_of c) <$> take todo (drop i buf)))).
Proof.
  induction todo as [|todo IH]; intros i val Hlen Hdig; [reflexivity|].
  destruct (lookup_lt_is_Some_2 buf i ltac:(lia)) as [c Hc].
  rewrite (drop_S _ c) in * by assumption. simpl take in *.
  apply Forall_cons in Hdig as [Hcd Hdig].
  rewrite fmap_cons. cbn [foldl Utils.hex2Val_loop]. rewrite Hc.
  cbn [mbind option_bind].
  rewrite shift_in_small by (apply hex_digit_value, Hcd).
  rewrite <- (IH (S i) (val * 16 + digit_of c)) by (lia || exact Hdig).
  rewrite u64_idemp_mul_add. reflexivity.
Qed.

Lemma isHexStr_loop_spec (buf : list byte) todo : forall i,
  (i + todo <= length buf)%nat ->
  char_is_signed = false
  \/ Forall (fun c => bits_of_char c < 128) (take todo (drop i buf)) ->
  Utils.isHexStr_loop char_is_signed todo i buf
  = Some (forallb is_hex_digit (take todo (drop i buf))).
Proof.
  induction todo as [|todo IH]; intros i Hlen Hdom; [reflexivity|].
  destruct (lookup_lt_is_Some_2 buf i ltac:(lia)) as [c Hc].
  rewrite (drop_S _ c) in * by assumption. simpl take in *.
  cbn [Utils.isHexStr_loop forallb]. rewrite Hc. cbn [mbind option_bind].
  rewrite isxdigit_defined
    by (destruct Hdom as [?|Hdom]; [left; assumption|right; apply (Forall_inv Hdom)]).
  cbn [mbind option_bind]. destruct (is_hex_digit c); [|reflexivity].
  apply IH; [lia|].
  destruct Hdom as [?|Hdom]; [left; assumption|right; apply (Forall_inv_tail Hdom)].
Qed.

Lemma isHexStr_loop_true (buf : list byte) todo : forall i,
  (i <= length buf)%nat ->
  Utils.isHexStr_loop char_is_signed todo i buf = Some true ->
  (i + todo <= length buf)%nat
  /\ Forall (fun c => is_hex_digit c = true) (take todo (drop i buf)).
Proof.
  induction todo as [|todo IH]; intros i Hi Hrun.
  - split; [lia|constructor].
  - cbn [Utils.isHexStr_loop] in Hrun.
    destruct (buf !! i) as [c|] eqn:Hc; [|discriminate].
    cbn [mbind option_bind] in Hrun.
    destruct (Utils.isxdigit (int_of_char char_is_signed c)) as [x|] eqn:Hx;
      [|discriminate].
    apply isxdigit_char in Hx. subst x. cbn [mbind option_bind] in Hrun.
    destruct (is_hex_digit c) eqn:Hdig; [|discriminate].
    apply lookup_lt_Some in Hc as Hlt.
    destruct (IH (S i) ltac:(lia) Hrun) as [Hlen Hall].
    split; [lia|]. rewrite (drop_S _ c) by assumption. simpl take.
    constructor; assumption.
Qed.

End HexNumerals.

(** [isHexStr] is false for the empty string; on a buffer that holds [len]
    characters it is true exactly when [len] is at least 1 and each of the
    [len] characters is one of 0-9, a-f, A-F.  With a signed plain [char]
    this needs the characters to be 7-bit: [isxdigit] is called on the
    promoted [char], and a negative argument is outside its domain. *)
Theorem isHexStr_spec (char_is_signed : bool) (buf : list byte) (len : nat) :
  (len <= length buf)%nat ->
  char_is_signed = false
  \/ Forall (fun c => bits_of_char c < 128) (take len buf) ->
  Utils.isHexStr char_is_signed buf len
  = Some (bool_decide (1 <= len)%nat && forallb is_hex_digit (take len buf)).
Proof.
  intros Hlen Hdom. unfold Utils.isHexStr.
  destruct (Nat.ltb_spec len 1).
  - rewrite bool_decide_eq_false_2 by lia. reflexivity.
  - rewrite bool_decide_eq_true_2 by lia.
    apply (isHexStr_loop_spec char_is_signed buf len 0); assumption.
Qed.

Lemma isHexStr_spec_witness :
  (4 <= length (list_byte_of_string "1aF9"))%nat
  /\ Utils.isHexStr true (list_byte_of_string "1aF9") 4
     = Some (bool_decide (1 <= 4)%nat
             && forallb is_hex_digit (take 4 (list_byte_of_string "1aF9"))).
Proof.
  split; [simpl; lia|].
  apply (isHexStr_spec true (list_byte_of_string "1aF9") 4).
  - simpl. lia.
  - right. repeat constructor.
Defined.

(** A string that [isHexStr] accepts is read by [hex2Val] as the number it
    denotes in base 16, reduced modulo [2 ^ 64]; with at most sixteen
    digits that is the number itself.  Digits of either case count. *)
Theorem isHexStr_hex2Val (char_is_signed : bool) (buf : list byte) (len : nat) :
  Utils.isHexStr char_is_signed buf len = Some true ->
  let digits :=
    (fun c => Utils.char2Hex (int_of_char char_is_signed c)) <$> take len buf in
  Forall (fun d => 0 <= d < 16) digits
  /\ Utils.hex2Val char_is_signed buf len = Some (hex_value digits mod 2 ^ 64)
  /\ ((len <= 16)%nat -> Utils.hex2Val char_is_signed buf len = Some (hex_value digits)).
Proof.
  intros Hrun digits. unfold Utils.isHexStr in Hrun.
  destruct (Nat.ltb_spec len 1); [discriminate|].
  destruct (isHexStr_loop_true char_is_signed buf len 0 ltac:(lia) Hrun)
    as [Hlen Hall].
  change (drop 0 buf) with buf in Hall.
  assert (Hdigits : Forall (fun d => 0 <= d < 16) digits).
  { subst digits. apply Forall_fmap. eapply Forall_impl; [exact Hall|].
    intros c Hc. apply hex_digit_value, Hc. }
  assert (Hval : Utils.hex2Val char_is_signed buf len = Some (hex_value digits mod 2 ^ 64)).
  { unfold Utils.hex2Val. change 0 with (u64 0) at 1.
    rewrite hex2Val_loop_value by (try lia; exact Hall). reflexivity. }
  split; [exact Hdigits|]. split; [exact Hval|].
  intros Hshort. rewrite Hval. f_equal. apply Z.mod_small.
  pose proof (hex_value_range digits Hdigits) as Hrange.
  assert (Hlenx : length digits = len)
    by (subst digits; rewrite length_fmap, length_take; lia).
  rewrite Hlenx in Hrange.
  assert (16 ^ Z.of_nat len <= 16 ^ 16) by (apply Z.pow_le_mono_r; lia).
  change (2 ^ 64) with (16 ^ 16). lia.
Qed.

Lemma isHexStr_hex2Val_witness :
  Utils.hex2Val false (list_byte_of_string "1aF9") 4
  = Some (hex_value ((fun c => Utils.char2Hex (int_of_char false c))
                       <$> take 4 (list_byte_of_string "1aF9"))).
Proof.
  apply (isHexStr_hex2Val false (list_byte_of_string "1aF9") 4).
  - reflexivity.
  - lia.
Defined.

(** ** Text written by [regVal2Hex] *)

Lemma store_Some i c (buf buf' : list byte) :
  Utils.store i c buf = Some buf' ->
  (i < length buf)%nat /\ buf' = <[i:=c]> buf.
Proof.
  unfold Utils.store. destruct (decide (i < length buf)%nat); [|discriminate].
  intros [= <-]. auto.
Qed.

Lemma put_pair_Some n val (buf buf' : list byte) :
  Utils.put_pair n val buf = Some buf' ->
  (n * 2 + 1 < length buf)%nat /\ length buf' = length buf.
Proof.
  unfold Utils.put_pair. intros Hrun.
  destruct (Utils.store (n * 2) _ buf) as [b1|] eqn:H1; [|discriminate].
  cbn [mbind option_bind] in Hrun.
  apply store_Some in H1 as [Hlt1 ->]. apply store_Some in Hrun as [Hlt2 ->].
  rewrite length_insert in Hlt2. rewrite !length_insert. split; [lia|reflexivity].
Qed.

Lemma regVal2Hex_le_Some todo : forall n val (buf buf' : list byte),
  Utils.regVal2Hex_le todo n val buf = Some buf' -> length buf' = length buf.
Proof.
  induction todo as [|todo IH]; intros n val buf buf' Hrun; simpl in Hrun.
  - injection Hrun as <-. reflexivity.
  - destruct (Utils.put_pair n val buf) as [b1|] eqn:H1; [|discriminate].
    cbn [mbind option_bind] in Hrun.
    apply put_pair_Some in H1 as [_ <-]. apply (IH _ _ _ _ Hrun).
Qed.

Lemma regVal2Hex_be_Some n : forall val (buf buf' : list byte),
  Utils.regVal2Hex_be n val buf = Some buf' -> length buf' = length buf.
Proof.
  induction n as [|n IH]; intros val buf buf' Hrun; simpl in Hrun.
  - injection Hrun as <-. reflexivity.
  - destruct (Utils.put_pair n val buf) as [b1|] eqn:H1; [|discriminate].
    cbn [mbind option_bind] in Hrun.
    apply put_pair_Some in H1 as [_ <-]. apply (IH _ _ _ Hrun).
Qed.

(** The digit pairs that [regVal2Hex] leaves in the buffer. *)
Lemma regVal2Hex_pairs v (buf : list byte) w le :
  (w * 2 + 1 <= length buf)%nat ->
  exists buf',
    Utils.regVal2Hex v buf w le = Some buf'
    /\ length buf' = length buf
    /\ (forall i, (i < w)%nat ->
         holds_pair buf' i (byte_at v (if le then i else w - 1 - i)))
    /\ buf' !! (w * 2)%nat = Some x00
    /\ (forall i, (w * 2 < i)%nat -> buf' !! i = buf !! i).
Proof.
  intros Hlen. unfold Utils.regVal2Hex, Utils.store. destruct le.
  - destruct (regVal2Hex_le_spec w 0 v buf ltac:(lia)) as (b1 & -> & Hl & Hp & Ho).
    cbn [mbind option_bind]. rewrite decide_True by lia. eexists.
    split; [reflexivity|]. rewrite length_insert. split; [assumption|].
    split; [|split].
    + intros i Hi. apply (holds_pair_ext b1);
        [apply list_lookup_insert_ne; lia..|apply (Hp i Hi)].
    + apply list_lookup_insert_eq. lia.
    + intros i Hi. rewrite list_lookup_insert_ne by lia. apply Ho. lia.
  - destruct (regVal2Hex_be_spec w v buf ltac:(lia)) as (b1 & -> & Hl & Hp & Ho).
    cbn [mbind option_bind]. rewrite decide_True by lia. eexists.
    split; [reflexivity|]. rewrite length_insert. split; [assumption|].
    split; [|split].
    + intros i Hi. apply (holds_pair_ext b1);
        [apply list_lookup_insert_ne; lia..|apply (Hp i Hi)].
    + apply list_lookup_insert_eq. lia.
    + intros i Hi. rewrite list_lookup_insert_ne by lia. apply Ho. lia.
Qed.

(** [regVal2Hex] stays inside the buffer exactly when the buffer holds the
    [2 * numBytes] digits and the NUL after them; with less room it writes
    outside of it, whatever the value. *)
Theorem regVal2Hex_needs_room (v : Z) (buf : list byte) (w : nat) (le : bool) :
  is_Some (Utils.regVal2Hex v buf w le) <-> (w * 2 + 1 <= length buf)%nat.
Proof.
  split.
  - intros [buf' Hrun]. unfold Utils.regVal2Hex in Hrun.
    destruct (if le then Utils.regVal2Hex_le w 0 v buf else Utils.regVal2Hex_be w v buf)
      as [b1|] eqn:Hloop; [|discriminate].
    cbn [mbind option_bind] in Hrun. apply store_Some in Hrun as [Hlt _].
    assert (length b1 = length buf); [|lia].
    destruct le; [apply (regVal2Hex_le_Some _ _ _ _ _ Hloop)
                 |apply (regVal2Hex_be_Some _ _ _ _ Hloop)].
  - intros Hlen. destruct (regVal2Hex_pairs v buf w le Hlen) as (buf' & -> & _).
    eauto.
Qed.

Lemma hex2Char_lower_digit d :
  0 <= d < 16 ->
  is_hex_digit (Utils.hex2Char d) = true
  /\ lower_case (Utils.hex2Char d) = Utils.hex2Char d
  /\ Utils.hex2Char d <> x00.
Proof.
  intros Hd. revert d Hd. apply Z_below_cases with (n := 16%nat).
  intros k Hk. do 16 (destruct k as [|k]; [vm_compute; intuition congruence|]). lia.
Qed.

Lemma strlen_first_nul n : forall buf : list byte,
  (forall j, (j < n)%nat -> exists c, buf !! j = Some c /\ c <> x00) ->
  buf !! n = Some x00 ->
  Utils.strlen buf = Some n.
Proof.
  induction n as [|n IH]; intros buf Hpre Hnul.
  - destruct buf as [|c buf]; [discriminate|]. injection Hnul as ->.
    reflexivity.
  - destruct buf as [|c buf]; [discriminate|].
    destruct (Hpre 0%nat ltac:(lia)) as (c0 & [= <-] & Hc0).
    cbn [Utils.strlen]. rewrite decide_False by assumption.
    rewrite (IH buf); [reflexivity| |exact Hnul].
    intros j Hj. apply (Hpre (S j)). lia.
Qed.

(** Every character of a digit pair is a lower-case hex digit. *)
Lemma holds_pair_digits (buf : list byte) w (f : nat -> Z) :
  (forall i, (i < w)%nat -> 0 <= f i < 256 /\ holds_pair buf i (f i)) ->
  forall j, (j < w * 2)%nat ->
    exists d, 0 <= d < 16 /\ buf !! j = Some (Utils.hex2Char d).
Proof.
  intros Hp j Hj.
  destruct (Hp (j / 2)%nat) as [Hb [Hhi Hlo]].
  { apply Nat.Div0.div_lt_upper_bound. lia. }
  pose proof (Nat.div_mod_eq j 2) as Hdm.
  pose proof (Nat.mod_upper_bound j 2 ltac:(lia)) as Hm.
  pose proof (Z.div_mod (f (j / 2)%nat) 16 ltac:(lia)).
  pose proof (Z.mod_pos_bound (f (j / 2)%nat) 16 ltac:(lia)).
  destruct (decide (j mod 2 = 0)%nat) as [Heven|Hodd].
  - exists (f (j / 2)%nat / 16). split; [lia|].
    rewrite <- Hhi. f_equal. lia.
  - exists (f (j / 2)%nat mod 16). split; [lia|].
    rewrite <- Hlo. f_equal. lia.
Qed.

(** What [regVal2Hex] leaves in a buffer with room: [2 * numBytes]
    lower-case hex digits, which [isHexStr] accepts, then a NUL, so that
    the text is a C string of that length; the buffer behind the NUL is
    untouched. *)
Theorem regVal2Hex_text
    (char_is_signed : bool) (v : Z) (buf : list byte) (w : nat) (le : bool) :
  (w * 2 + 1 <= length buf)%nat ->
  exists buf',
    Utils.regVal2Hex v buf w le = Some buf'
    /\ length buf' = length buf
    /\ Forall (fun c => is_hex_digit c = true /\ lower_case c = c) (take (w * 2) buf')
    /\ Utils.strlen buf' = Some (w * 2)%nat
    /\ ((1 <= w)%nat -> Utils.isHexStr char_is_signed buf' (w * 2) = Some true)
    /\ drop (w * 2 + 1) buf' = drop (w * 2 + 1) buf.
Proof.
  intros Hlen.
  destruct (regVal2Hex_pairs v buf w le Hlen) as (buf' & Hrun & Hl & Hp & Hnul & Ho).
  pose proof (holds_pair_digits buf' w
                (fun i => byte_at v (if le then i else w - 1 - i))
                (fun i Hi => conj (byte_at_range v _) (Hp i Hi))) as Hdig.
  assert (Hall : Forall (fun c => is_hex_digit c = true /\ lower_case c = c)
                   (take (w * 2) buf')).
  { apply Forall_lookup. intros j c Hc.
    apply lookup_take_Some in Hc as [Hc Hj].
    destruct (Hdig j Hj) as (d & Hd & Hjd). rewrite Hjd in Hc. injection Hc as <-.
    destruct (hex2Char_lower_digit d Hd) as (? & ? & ?). auto. }
  exists buf'. split; [exact Hrun|]. split; [exact Hl|]. split; [exact Hall|].
  split; [|split].
  - apply strlen_first_nul; [|exact Hnul].
    intros j Hj. destruct (Hdig j Hj) as (d & Hd & Hjd).
    exists (Utils.hex2Char d). split; [exact Hjd|apply hex2Char_lower_digit, Hd].
  - intros Hw. unfold Utils.isHexStr.
    destruct (Nat.ltb_spec (w * 2) 1); [lia|].
    rewrite isHexStr_loop_spec.
    + f_equal. apply forallb_forall. intros c Hc.
      apply list_elem_of_In in Hc.
      change (drop 0 buf') with buf' in Hc.
      apply (proj1 (Forall_forall _ _) Hall) in Hc. apply Hc.
    + lia.
    + right. change (drop 0 buf') with buf'.
      eapply Forall_impl; [exact Hall|]. intros c [Hc _].
      destruct c; vm_compute in Hc; try discriminate; vm_compute; reflexivity.
  - apply list_eq. intros i. rewrite !lookup_drop. apply Ho. lia.
Qed.

Lemma regVal2Hex_text_witness :
  (2 * 2 + 1 <= length (replicate 6 x01))%nat
  /\ exists buf',
       Utils.regVal2Hex 0xbeef (replicate 6 x01) 2 true = Some buf'
       /\ length buf' = length (replicate 6 x01)
       /\ Forall (fun c => is_hex_digit c = true /\ lower_case c = c) (take (2 * 2) buf')
       /\ Utils.strlen buf' = Some (2 * 2)%nat
       /\ ((1 <= 2)%nat -> Utils.isHexStr true buf' (2 * 2) = Some true)
       /\ drop (2 * 2 + 1) buf' = drop (2 * 2 + 1) (replicate 6 x01).
Proof.
  split; [simpl; lia|].
  apply (regVal2Hex_text true 0xbeef (replicate 6 x01) 2 true). simpl. lia.
Defined.

(** The big-endian text is the little-endian text with the digit pairs in
    reverse order. *)
Theorem regVal2Hex_endianness (v : Z) (buf : list byte) (w : nat) :
  (w * 2 + 1 <= length buf)%nat ->
  exists little big,
    Utils.regVal2Hex v buf w true = Some little
    /\ Utils.regVal2Hex v buf w false = Some big
    /\ forall i, (i < w)%nat ->
         big !! (i * 2)%nat = little !! ((w - 1 - i) * 2)%nat
         /\ big !! (i * 2 + 1)%nat = little !! ((w - 1 - i) * 2 + 1)%nat.
Proof.
  intros Hlen.
  destruct (regVal2Hex_pairs v buf w true Hlen) as (little & Hl & _ & Hpl & _).
  destruct (regVal2Hex_pairs v buf w false Hlen) as (big & Hb & _ & Hpb & _).
  exists little, big. split; [exact Hl|]. split; [exact Hb|].
  intros i Hi. destruct (Hpb i Hi) as [Hb1 Hb2].
  destruct (Hpl (w - 1 - i)%nat ltac:(lia)) as [Hl1 Hl2].
  rewrite Hb1, Hb2, Hl1, Hl2. auto.
Qed.

Lemma regVal2Hex_endianness_witness :
  (2 * 2 + 1 <= length (replicate 5 x00))%nat
  /\ exists little big,
       Utils.regVal2Hex 0x1234 (replicate 5 x00) 2 true = Some little
       /\ Utils.regVal2Hex 0x1234 (replicate 5 x00) 2 false = Some big
       /\ forall i, (i < 2)%nat ->
            big !! (i * 2)%nat = little !! ((2 - 1 - i) * 2)%nat
            /\ big !! (i * 2 + 1)%nat = little !! ((2 - 1 - i) * 2 + 1)%nat.
Proof.
  split; [simpl; lia|].
  apply (regVal2Hex_endianness 0x1234 (replicate 5 x00) 2). simpl. lia.
Defined.

(** ** [val2Hex] *)

Lemma nibble_at_range val j : 0 <= nibble_at val j < 16.
Proof. apply Z.mod_pos_bound. lia. Qed.

Lemma nibble_at_0 val : nibble_at val 0 = val mod 16.
Proof. unfold nibble_at. simpl. rewrite Z.div_1_r. reflexivity. Qed.

Lemma nibble_at_S val j : nibble_at (val / 16) j = nibble_at val (S j).
Proof.
  unfold nibble_at. rewrite Nat2Z.inj_succ, Z.pow_succ_r by lia.
  rewrite Z.div_div by lia. reflexivity.
Qed.

Lemma low_nibbles_S v k :
  nibble_at v k * 16 ^ Z.of_nat k + v mod 16 ^ Z.of_nat k
  = v mod 16 ^ Z.of_nat (S k).
Proof.
  unfold nibble_at. rewrite Nat2Z.inj_succ, Z.pow_succ_r by lia.
  rewrite (Z.mul_comm 16), Z.rem_mul_r by lia. lia.
Qed.

(** The [do ... while] loop writes the digits of [val], the least
    significant first, and stops after the most significant one. *)
Lemma val2Hex_digits_spec fuel : forall n val k (buf : list byte),
  0 <= val < 16 ^ Z.of_nat n -> (1 <= n <= fuel)%nat ->
  (k + n <= length buf)%nat ->
  exists m buf',
    (1 <= m <= n)%nat
    /\ Utils.val2Hex_digits fuel val k buf = Some (buf', (k + m)%nat)
    /\ length buf' = length buf
    /\ (forall j, (j < m)%nat ->
         buf' !! (k + j)%nat = Some (Utils.hex2Char (nibble_at val j)))
    /\ (forall i, (i < k \/ k + m <= i)%nat -> buf' !! i = buf !! i)
    /\ val < 16 ^ Z.of_nat m
    /\ (m = 1%nat \/ 16 ^ Z.of_nat (m - 1) <= val).
Proof.
  induction fuel as [|fuel IH]; intros n val k buf Hval Hn Hlen; [lia|].
  cbn [Utils.val2Hex_digits]. unfold Utils.store at 1.
  rewrite decide_True by lia. cbn [mbind option_bind].
  rewrite low_nibble, <- nibble_at_0, Z.shiftr_div_pow2 by lia.
  change (2 ^ 4) with 16.
  pose proof (Z.div_mod val 16 ltac:(lia)) as Hdm.
  pose proof (Z.mod_pos_bound val 16 ltac:(lia)) as Hmod.
  destruct (Z.eqb_spec (val / 16) 0) as [Hz|Hnz].
  - exists 1%nat. eexists. split; [lia|]. split; [reflexivity|].
    rewrite length_insert. split; [reflexivity|]. split; [|split; [|split]].
    + intros j Hj. replace j with 0%nat by lia. rewrite Nat.add_0_r.
      apply list_lookup_insert_eq. lia.
    + intros i Hi. apply list_lookup_insert_ne. lia.
    + change (16 ^ Z.of_nat 1) with 16. lia.
    + left. reflexivity.
  - destruct n as [|[|n]]; [lia| |].
    { change (16 ^ Z.of_nat 1) with 16 in Hval. lia. }
    assert (Hval' : 0 <= val / 16 < 16 ^ Z.of_nat (S n)).
    { rewrite (Nat2Z.inj_succ (S n)), Z.pow_succ_r in Hval by lia. lia. }
    destruct (IH (S n) (val / 16) (k + 1)%nat
                (<[k:=Utils.hex2Char (nibble_at val 0)]> buf) Hval' ltac:(lia))
      as (m & buf' & Hm & Hrun & Hl & Hdig & Hout & Hlt & Hge).
    { rewrite length_insert. lia. }
    exists (S m), buf'. split; [lia|]. split.
    { rewrite Hrun. do 2 f_equal. lia. }
    rewrite length_insert in Hl. split; [exact Hl|]. split; [|split; [|split]].
    + intros [|j] Hj.
      * rewrite Nat.add_0_r, Hout by lia. apply list_lookup_insert_eq. lia.
      * rewrite <- nibble_at_S. replace (k + S j)%nat with (k + 1 + j)%nat by lia.
        apply Hdig. lia.
    + intros i Hi. rewrite Hout by lia. apply list_lookup_insert_ne. lia.
    + rewrite Nat2Z.inj_succ, Z.pow_succ_r by lia. lia.
    + right. replace (S m - 1)%nat with m by lia.
      destruct Hge as [->|Hge].
      * change (16 ^ Z.of_nat 1) with 16. lia.
      * replace m with (S (m - 1)) at 1 by lia.
        rewrite Nat2Z.inj_succ, Z.pow_succ_r by lia. lia.
Qed.

(** The [for] loop reverses the first [numChars] characters in place. *)
Lemma val2Hex_reverse_spec n todo : forall i (buf : list byte),
  (n <= length buf)%nat -> ((i + todo) * 2 <= n)%nat ->
  exists buf',
    Utils.val2Hex_reverse todo i n buf = Some buf'
    /\ length buf' = length buf
    /\ (forall j, (i <= j < i + todo \/ n - (i + todo) <= j < n - i)%nat ->
         buf' !! j = buf !! (n - 1 - j)%nat)
    /\ (forall j, ~ (i <= j < i + todo \/ n - (i + todo) <= j < n - i)%nat ->
         buf' !! j = buf !! j).
Proof.
  induction todo as [|todo IH]; intros i buf Hlen Htodo.
  - exists buf. split; [reflexivity|]. split; [reflexivity|].
    split; [intros j Hj; lia|intros; reflexivity].
  - cbn [Utils.val2Hex_reverse].
    destruct (lookup_lt_is_Some_2 buf (n - i - 1) ltac:(lia)) as [tmp Htmp].
    destruct (lookup_lt_is_Some_2 buf i ltac:(lia)) as [c Hc].
    rewrite Htmp, Hc. cbn [mbind option_bind]. unfold Utils.store.
    rewrite decide_True by lia. cbn [mbind option_bind].
    rewrite decide_True by (rewrite length_insert; lia). cbn [mbind option_bind].
    destruct (IH (S i) (<[i:=tmp]> (<[(n - i - 1)%nat:=c]> buf)))
      as (buf' & Hrun & Hl & Hswap & Hkeep).
    { rewrite !length_insert. lia. }
    { lia. }
    exists buf'. split; [exact Hrun|]. rewrite !length_insert in Hl.
    split; [exact Hl|]. split.
    + intros j Hj.
      destruct (decide (j = i)) as [->|Hji].
      { rewrite Hkeep by lia. rewrite list_lookup_insert_eq
          by (rewrite length_insert; lia).
        rewrite <- Htmp. f_equal. lia. }
      destruct (decide (j = n - i - 1)%nat) as [->|Hjn].
      { rewrite Hkeep by lia. rewrite list_lookup_insert_ne by lia.
        rewrite list_lookup_insert_eq by lia.
        rewrite <- Hc. f_equal. lia. }
      rewrite Hswap by lia. rewrite !list_lookup_insert_ne by lia. reflexivity.
    + intros j Hj. rewrite Hkeep by lia.
      rewrite !list_lookup_insert_ne by lia. reflexivity.
Qed.

Lemma hex2Val_loop_nibbles char_is_signed v (buf : list byte) todo : forall i val,
  (forall j, (j < todo)%nat ->
     buf !! (i + j)%nat = Some (Utils.hex2Char (nibble_at v (todo - 1 - j)))) ->
  Utils.hex2Val_loop char_is_signed todo i (u64 val) buf
  = Some (u64 (val * 16 ^ Z.of_nat todo + v mod 16 ^ Z.of_nat todo)).
Proof.
  induction todo as [|todo IH]; intros i val Hdig.
  - simpl. rewrite Z.mod_1_r, Z.mul_1_r, Z.add_0_r. reflexivity.
  - cbn [Utils.hex2Val_loop].
    pose proof (Hdig 0%nat ltac:(lia)) as H0.
    rewrite Nat.add_0_r in H0. rewrite H0. cbn [mbind option_bind].
    rewrite shift_in_digit by apply nibble_at_range.
    rewrite u64_idemp_mul_add.
    rewrite IH.
    + replace (S todo - 1 - 0)%nat with todo by lia.
      rewrite <- (low_nibbles_S v todo), Nat2Z.inj_succ, Z.pow_succ_r by lia.
      do 2 f_equal. ring.
    + intros j Hj. replace (S i + j)%nat with (i + S j)%nat by lia.
      rewrite Hdig by lia.
      replace (S todo - 1 - S j)%nat with (todo - 1 - j)%nat by lia. reflexivity.
Qed.

(** [val2Hex] writes the shortest hex numeral of [val]: for a value below
    [16 ^ n] (every [uint64_t] is below [16 ^ 16]) and a buffer of at
    least [n + 1] characters it writes [m <= n] lower-case digits, without
    a leading zero unless the value is 0, and a NUL; it returns [m],
    leaves the buffer behind the NUL untouched, and [hex2Val] reads the
    value back from the [m] digits. *)
Theorem val2Hex_round_trip
    (char_is_signed : bool) (v : Z) (buf : list byte) (n : nat) :
  0 <= v < 16 ^ Z.of_nat n -> (1 <= n <= 16)%nat -> (n + 1 <= length buf)%nat ->
  exists buf' m,
    Utils.val2Hex v buf = Some (buf', m)
    /\ (1 <= m <= n)%nat
    /\ (m = 1%nat \/ 16 ^ Z.of_nat (m - 1) <= v)
    /\ length buf' = length buf
    /\ (forall j, (j < m)%nat ->
         buf' !! j = Some (Utils.hex2Char (nibble_at v (m - 1 - j))))
    /\ buf' !! m = Some x00
    /\ (forall i, (m < i)%nat -> buf' !! i = buf !! i)
    /\ Utils.hex2Val char_is_signed buf' m = Some v.
Proof.
  intros Hv Hn Hlen.
  destruct (val2Hex_digits_spec 16 n v 0 buf Hv ltac:(lia) ltac:(lia))
    as (m & b1 & Hm & Hrun & Hl1 & Hdig & Hout & Hlt & Hge).
  pose proof (Nat.div_mod_eq m 2) as Hdm.
  pose proof (Nat.mod_upper_bound m 2 ltac:(lia)) as Hmod.
  destruct (val2Hex_reverse_spec m (m / 2) 0 b1 ltac:(lia) ltac:(lia))
    as (b2 & Hrev & Hl2 & Hswap & Hkeep).
  assert (Hdigits : forall j, (j < m)%nat ->
            b2 !! j = Some (Utils.hex2Char (nibble_at v (m - 1 - j)))).
  { intros j Hj.
    destruct (decide (0 <= j < 0 + m / 2 \/ m - (0 + m / 2) <= j < m - 0)%nat)
      as [Hin|Hmid].
    - rewrite (Hswap j Hin). apply (Hdig (m - 1 - j)%nat). lia.
    - rewrite (Hkeep j Hmid). replace (m - 1 - j)%nat with j by lia.
      apply (Hdig j Hj). }
  exists (<[m:=x00]> b2), m. unfold Utils.val2Hex.
  rewrite Hrun. cbn [mbind option_bind]. change (0 + m)%nat with m.
  rewrite Hrev. cbn [mbind option_bind]. unfold Utils.store.
  rewrite decide_True by lia. cbn [mbind option_bind].
  assert (Hdigits' : forall j, (j < m)%nat ->
            <[m:=x00]> b2 !! j = Some (Utils.hex2Char (nibble_at v (m - 1 - j)))).
  { intros j Hj. rewrite list_lookup_insert_ne by lia. apply Hdigits, Hj. }
  assert (Hnul : <[m:=x00]> b2 !! m = Some x00)
    by (apply list_lookup_insert_eq; lia).
  rewrite (strlen_first_nul m).
  - cbn [mbind option_bind]. split; [reflexivity|]. split; [exact Hm|].
    split; [exact Hge|]. rewrite length_insert. split; [lia|].
    split; [exact Hdigits'|]. split; [exact Hnul|]. split.
    + intros i Hi. rewrite list_lookup_insert_ne by lia.
      rewrite Hkeep by lia. apply Hout. lia.
    + unfold Utils.hex2Val. change 0 with (u64 0) at 1.
      rewrite (hex2Val_loop_nibbles char_is_signed v) by exact Hdigits'.
      rewrite Z.mul_0_l, Z.add_0_l, (Z.mod_small v) by lia.
      f_equal. apply u64_small.
      assert (16 ^ Z.of_nat m <= 16 ^ 16) by (apply Z.pow_le_mono_r; lia).
      change (2 ^ 64) with (16 ^ 16). lia.
  - intros j Hj. eexists. split; [apply Hdigits', Hj|].
    apply hex2Char_lower_digit, nibble_at_range.
  - exact Hnul.
Qed.

Lemma val2Hex_round_trip_witness :
  0 <= 0xc0ffee < 16 ^ Z.of_nat 16
  /\ (16 + 1 <= length (replicate 17 x01))%nat
  /\ exists buf' m,
       Utils.val2Hex 0xc0ffee (replicate 17 x01) = Some (buf', m)
       /\ (1 <= m <= 16)%nat
       /\ (m = 1%nat \/ 16 ^ Z.of_nat (m - 1) <= 0xc0ffee)
       /\ length buf' = length (replicate 17 x01)
       /\ (forall j, (j < m)%nat ->
            buf' !! j = Some (Utils.hex2Char (nibble_at 0xc0ffee (m - 1 - j))))
       /\ buf' !! m = Some x00
       /\ (forall i, (m < i)%nat -> buf' !! i = replicate 17 x01 !! i)
       /\ Utils.hex2Val true buf' m = Some 0xc0ffee.
Proof.
  split; [simpl; lia|]. split; [simpl; lia|].
  apply (val2Hex_round_trip true 0xc0ffee (replicate 17 x01) 16).
  - simpl. lia.
  - lia.
  - simpl. lia.
Defined.

(** ** [ascii2Hex] and [hex2Ascii] *)

Section AsciiHex.

Variable char_is_signed : bool.

Lemma is_nul_int c : (int_of_char char_is_signed c =? 0) = bool_decide (c = x00).
Proof. destruct char_is_signed, c; reflexivity. Qed.

Lemma high_nibble_char c :
  Z.land (Z.shiftr (int_of_char char_is_signed c) 4) 15 = bits_of_char c / 16.
Proof. destruct char_is_signed, c; reflexivity. Qed.

Lemma low_nibble_char c :
  Z.land (int_of_char char_is_signed c) 15 = bits_of_char c mod 16.
Proof. destruct char_is_signed, c; reflexivity. Qed.

Lemma hex_pair_not_nul c : Forall (fun h => h <> x00) (hex_pair c).
Proof. destruct c; repeat constructor; discriminate. Qed.

Lemma hex_pair_value c :
  char_of_int (nibble_of char_is_signed (Utils.hex2Char (bits_of_char c / 16)) * 16
               + nibble_of char_is_signed (Utils.hex2Char (bits_of_char c mod 16)))
  = c.
Proof. destruct char_is_signed, c; reflexivity. Qed.

(** The byte that the body of [hex2Ascii] computes from two characters. *)
Lemma hex2Ascii_byte h l :
  Z.lor (Z.shiftl (Z.land (Utils.char2Hex (int_of_char char_is_signed h)) 15) 4)
        (Z.land (Utils.char2Hex (int_of_char char_is_signed l)) 15)
  = nibble_of char_is_signed h * 16 + nibble_of char_is_signed l.
Proof.
  unfold nibble_of. rewrite !low_nibble, Z.shiftl_mul_pow2 by lia.
  change (2 ^ 4) with 16. apply lor_digit. apply Z.mod_pos_bound. lia.
Qed.

Lemma store_app_head (done rest : list byte) x y i :
  i = length done ->
  Utils.store i x (done ++ y :: rest) = Some (done ++ x :: rest).
Proof.
  intros ->. unfold Utils.store.
  rewrite decide_True by (rewrite length_app; simpl; lia).
  f_equal. rewrite <- (Nat.add_0_r (length done)), insert_app_r. reflexivity.
Qed.

Lemma ascii2Hex_loop_spec (junk : list byte) s : forall fuel pre done rest,
  Forall (fun c => c <> x00) s ->
  length done = (length pre * 2)%nat ->
  (length s * 2 + 1 <= length rest)%nat -> (length s < fuel)%nat ->
  Utils.ascii2Hex_loop char_is_signed fuel (length pre) (done ++ rest)
    (pre ++ s ++ x00 :: junk)
  = Some (done ++ (s ≫= hex_pair) ++ x00 :: drop (length s * 2 + 1) rest).
Proof.
  induction s as [|c s IH]; intros fuel pre done rest Hs Hdone Hrest Hfuel;
    (destruct fuel as [|fuel]; [simpl in Hfuel; lia|]);
    cbn [Utils.ascii2Hex_loop].
  - change (pre ++ [] ++ x00 :: junk) with (pre ++ x00 :: junk).
    rewrite list_lookup_middle by reflexivity.
    cbn [mbind option_bind]. rewrite is_nul_int.
    rewrite bool_decide_eq_true_2 by reflexivity.
    destruct rest as [|r rest]; [simpl in Hrest; lia|].
    apply store_app_head. lia.
  - apply Forall_cons in Hs as [Hc Hs].
    change (pre ++ (c :: s) ++ x00 :: junk) with (pre ++ c :: s ++ x00 :: junk).
    rewrite list_lookup_middle by reflexivity.
    cbn [mbind option_bind]. rewrite is_nul_int.
    rewrite bool_decide_eq_false_2 by assumption.
    rewrite high_nibble_char, low_nibble_char.
    destruct rest as [|r0 [|r1 rest]]; [simpl in Hrest; lia..|].
    rewrite (store_app_head done (r1 :: rest)) by lia.
    cbn [mbind option_bind].
    replace (done ++ Utils.hex2Char (bits_of_char c / 16) :: r1 :: rest)
      with ((done ++ [Utils.hex2Char (bits_of_char c / 16)]) ++ r1 :: rest)
      by (rewrite <- app_assoc; reflexivity).
    rewrite store_app_head by (rewrite length_app; simpl; lia).
    cbn [mbind option_bind].
    pose proof (IH fuel (pre ++ [c]) (done ++ hex_pair c) rest Hs) as Hrec.
    rewrite !length_app in Hrec. simpl length in Hrec.
    rewrite Nat.add_1_r, <- !app_assoc in Hrec.
    rewrite <- app_assoc.
    apply Hrec; simpl in *; lia.
Qed.

Lemma lookup_middle_next (pre t : list byte) h l n :
  n = (length pre + 1)%nat -> (pre ++ h :: l :: t) !! n = Some l.
Proof.
  intros ->. replace (pre ++ h :: l :: t) with ((pre ++ [h]) ++ l :: t)
    by (rewrite <- app_assoc; reflexivity).
  apply list_lookup_middle. rewrite length_app. reflexivity.
Qed.

Lemma hex2Ascii_loop_spec (junk : list byte) ps : forall fuel pre done rest tail,
  Forall (fun p : byte * byte => p.1 <> x00 /\ p.2 <> x00) ps ->
  tail = x00 :: junk \/ (exists c, c <> x00 /\ tail = c :: x00 :: junk) ->
  length pre = (length done * 2)%nat ->
  (length ps + 1 <= length rest)%nat -> (length ps < fuel)%nat ->
  Utils.hex2Ascii_loop char_is_signed fuel (length done) (done ++ rest)
    (pre ++ pair_chars ps ++ tail)
  = Some (done
            ++ ((fun p : byte * byte =>
                   char_of_int (nibble_of char_is_signed p.1 * 16
                                + nibble_of char_is_signed p.2)) <$> ps)
            ++ x00 :: drop (length ps + 1) rest).
Proof.
  induction ps as [|[h l] ps IH]; intros fuel pre done rest tail Hps Htail Hpre Hrest Hfuel;
    (destruct fuel as [|fuel]; [simpl in Hfuel; lia|]);
    cbn [Utils.hex2Ascii_loop].
  - change (pre ++ pair_chars [] ++ tail) with (pre ++ tail).
    destruct rest as [|r rest]; [simpl in Hrest; lia|].
    destruct Htail as [->|(c & Hc & ->)].
    + rewrite (list_lookup_middle pre _ _ (length done * 2)) by lia. cbn [mbind option_bind].
      rewrite is_nul_int, bool_decide_eq_true_2 by reflexivity.
      apply store_app_head. reflexivity.
    + rewrite (list_lookup_middle pre _ _ (length done * 2)) by lia. cbn [mbind option_bind].
      rewrite is_nul_int, bool_decide_eq_false_2 by assumption.
      rewrite (lookup_middle_next pre _ _ _ (length done * 2 + 1)) by lia. cbn [mbind option_bind].
      rewrite is_nul_int, bool_decide_eq_true_2 by reflexivity.
      apply store_app_head. reflexivity.
  - apply Forall_cons in Hps as [[Hh Hl] Hps]. simpl in Hh, Hl.
    change (pre ++ pair_chars ((h, l) :: ps) ++ tail)
      with (pre ++ h :: l :: pair_chars ps ++ tail).
    rewrite (list_lookup_middle pre _ _ (length done * 2)) by lia. cbn [mbind option_bind].
    rewrite is_nul_int, bool_decide_eq_false_2 by assumption.
    rewrite (lookup_middle_next pre _ _ _ (length done * 2 + 1)) by lia. cbn [mbind option_bind].
    rewrite is_nul_int, bool_decide_eq_false_2 by assumption.
    rewrite hex2Ascii_byte.
    destruct rest as [|r rest]; [simpl in Hrest; lia|].
    rewrite store_app_head by reflexivity. cbn [mbind option_bind].
    pose proof (IH fuel (pre ++ [h; l])
                  (done ++ [char_of_int (nibble_of char_is_signed h * 16
                                         + nibble_of char_is_signed l)])
                  rest tail Hps Htail) as Hrec.
    rewrite !length_app in Hrec. simpl length in Hrec.
    rewrite Nat.add_1_r, <- !app_assoc in Hrec.
    apply Hrec; simpl in *; lia.
Qed.

End AsciiHex.

Lemma length_pair_chars ps : length (pair_chars ps) = (length ps * 2)%nat.
Proof.
  induction ps as [|p ps IH]; [reflexivity|].
  change (pair_chars (p :: ps)) with (p.1 :: p.2 :: pair_chars ps).
  simpl. rewrite IH. lia.
Qed.

(** [ascii2Hex] writes, for a source string [s] (the characters before the
    first NUL of [src]), the two lower-case hex digits of each character
    and a NUL, into a destination of at least [2 * length s + 1]
    characters, and leaves the destination behind the NUL untouched. *)
Theorem ascii2Hex_text
    (char_is_signed : bool) (s junk dest : list byte) :
  Forall (fun c => c <> x00) s -> (length s * 2 + 1 <= length dest)%nat ->
  Utils.ascii2Hex char_is_signed dest (s ++ x00 :: junk)
  = Some ((s ≫= hex_pair) ++ x00 :: drop (length s * 2 + 1) dest).
Proof.
  intros Hs Hdest. unfold Utils.ascii2Hex.
  apply (ascii2Hex_loop_spec char_is_signed junk s _ [] [] dest Hs);
    [reflexivity|exact Hdest|].
  rewrite length_app. simpl. lia.
Qed.

Lemma ascii2Hex_text_witness :
  Utils.ascii2Hex true (replicate 6 x01) (list_byte_of_string "Hi" ++ x00 :: [x02])
  = Some ((list_byte_of_string "Hi" ≫= hex_pair) ++ x00 :: drop (2 * 2 + 1) (replicate 6 x01)).
Proof.
  apply (ascii2Hex_text true (list_byte_of_string "Hi") [x02] (replicate 6 x01)).
  - repeat constructor; discriminate.
  - simpl. lia.
Defined.

(** [hex2Ascii] turns each pair of characters before the end of its input
    into the byte [16 * hi + lo], where a character that is no hex digit
    counts as 15, and writes a NUL after them.  The input ends at the first
    pair that starts with a NUL or has a NUL second: a last digit without
    a partner is dropped. *)
Theorem hex2Ascii_bytes
    (char_is_signed : bool) (ps : list (byte * byte)) (tail junk dest : list byte) :
  Forall (fun p : byte * byte => p.1 <> x00 /\ p.2 <> x00) ps ->
  tail = x00 :: junk \/ (exists c, c <> x00 /\ tail = c :: x00 :: junk) ->
  (length ps + 1 <= length dest)%nat ->
  Utils.hex2Ascii char_is_signed dest (pair_chars ps ++ tail)
  = Some (((fun p : byte * byte =>
              char_of_int (nibble_of char_is_signed p.1 * 16
                           + nibble_of char_is_signed p.2)) <$> ps)
            ++ x00 :: drop (length ps + 1) dest).
Proof.
  intros Hps Htail Hdest. unfold Utils.hex2Ascii.
  apply (hex2Ascii_loop_spec char_is_signed junk ps _ [] [] dest tail Hps Htail);
    [reflexivity|exact Hdest|].
  rewrite length_app, length_pair_chars. lia.
Qed.

Lemma hex2Ascii_bytes_witness :
  Utils.hex2Ascii false (replicate 3 x01)
    (pair_chars [(x34, x31); (x7a, x46)] ++ [x39; x00])
  = Some (((fun p : byte * byte =>
              char_of_int (nibble_of false p.1 * 16 + nibble_of false p.2))
             <$> [(x34, x31); (x7a, x46)])
            ++ x00 :: drop (2 + 1) (replicate 3 x01)).
Proof.
  apply (hex2Ascii_bytes false [(x34, x31); (x7a, x46)] [x39; x00] [] (replicate 3 x01)).
  - repeat constructor; discriminate.
  - right. exists x39. split; [discriminate|reflexivity].
  - simpl. lia.
Defined.

(** [hex2Ascii] undoes [ascii2Hex]: a NUL-free string [s] that is turned
    into hex and back is [s] again, followed by a NUL. *)
Theorem hex2Ascii_ascii2Hex
    (char_is_signed : bool) (s junk hex dest : list byte) :
  Forall (fun c => c <> x00) s ->
  (length s * 2 + 1 <= length hex)%nat -> (length s + 1 <= length dest)%nat ->
  exists hex',
    Utils.ascii2Hex char_is_signed hex (s ++ x00 :: junk) = Some hex'
    /\ Utils.hex2Ascii char_is_signed dest hex'
       = Some (s ++ x00 :: drop (length s + 1) dest).
Proof.
  intros Hs Hhex Hdest. eexists. split.
  - unfold Utils.ascii2Hex.
    apply (ascii2Hex_loop_spec char_is_signed junk s _ [] [] hex Hs);
      [reflexivity|exact Hhex|].
    rewrite length_app. simpl. lia.
  - set (ps := (fun c => (Utils.hex2Char (bits_of_char c / 16),
                          Utils.hex2Char (bits_of_char c mod 16))) <$> s).
    assert (Hchars : s ≫= hex_pair = pair_chars ps).
    { subst ps. clear. induction s as [|c s IH]; [reflexivity|].
      rewrite fmap_cons.
      change (pair_chars (?p :: ?l)) with (p.1 :: p.2 :: pair_chars l).
      simpl. rewrite <- IH. reflexivity. }
    assert (Hlen : length ps = length s) by (subst ps; apply length_fmap).
    assert (Hmap : (fun p : byte * byte =>
                      char_of_int (nibble_of char_is_signed p.1 * 16
                                   + nibble_of char_is_signed p.2)) <$> ps = s).
    { subst ps. clear. induction s as [|c s IH]; [reflexivity|].
      rewrite !fmap_cons, IH. simpl fst. simpl snd.
      rewrite hex_pair_value. reflexivity. }
    change ([] ++ ?l) with l. rewrite Hchars. unfold Utils.hex2Ascii.
    rewrite (hex2Ascii_loop_spec char_is_signed (drop (length s * 2 + 1) hex) ps
               _ [] [] dest (x00 :: drop (length s * 2 + 1) hex)).
    + rewrite Hlen, Hmap. reflexivity.
    + subst ps. apply Forall_fmap. apply Forall_forall. intros c _. simpl.
      pose proof (hex_pair_not_nul c) as Hp.
      apply Forall_cons in Hp as [H1 Hp]. apply Forall_inv in Hp. auto.
    + left. reflexivity.
    + reflexivity.
    + rewrite Hlen. exact Hdest.
    + rewrite length_app, length_pair_chars. lia.
Qed.

Lemma hex2Ascii_ascii2Hex_witness :
  exists hex',
    Utils.ascii2Hex true (replicate 7 x01) (list_byte_of_string "ok!" ++ x00 :: [])
    = Some hex'
    /\ Utils.hex2Ascii true (replicate 5 x02) hex'
       = Some (list_byte_of_string "ok!" ++ x00 :: drop (3 + 1) (replicate 5 x02)).
Proof.
  apply (hex2Ascii_ascii2Hex true (list_byte_of_string "ok!") [] (replicate 7 x01)
           (replicate 5 x02)).
  - repeat constructor; discriminate.
  - simpl. lia.
  - simpl. lia.
Defined.

(** ** [split] *)

Lemma find_index_None P l :
  Utils.find_index P l = None -> Forall (fun c => P c = false) l.
Proof.
  induction l as [|c l IH]; simpl; [constructor|].
  destruct (P c) eqn:Hc; [discriminate|].
  destruct (Utils.find_index P l); [discriminate|]. auto.
Qed.

Lemma find_index_Some P l i :
  Utils.find_index P l = Some i ->
  exists pre c post,
    l = pre ++ c :: post /\ length pre = i
    /\ Forall (fun c => P c = false) pre /\ P c = true.
Proof.
  revert i. induction l as [|c l IH]; intros i; simpl; [discriminate|].
  destruct (P c) eqn:Hc.
  - intros [= <-]. exists [], c, l. auto.
  - destruct (Utils.find_index P l) as [j|]; [|discriminate].
    intros [= <-]. destruct (IH j eq_refl) as (pre & c' & post & -> & Hlen & Hpre & Hc').
    exists (c :: pre), c', post. simpl. auto.
Qed.

Lemma in_delim_false (delim : list byte) c :
  negb (bool_decide (c ∈ delim)) = false -> c ∈ delim.
Proof. rewrite negb_false_iff, bool_decide_eq_true. auto. Qed.

Lemma in_delim_true (delim : list byte) c :
  negb (bool_decide (c ∈ delim)) = true -> c ∉ delim.
Proof. rewrite negb_true_iff, bool_decide_eq_false. auto. Qed.

Lemma not_in_delim (delim : list byte) c :
  bool_decide (c ∈ delim) = false -> c ∉ delim.
Proof. rewrite bool_decide_eq_false. auto. Qed.

Lemma split_loop_fields delim fuel : forall s done rem next elems,
  s = done ++ rem -> Utils.next_plus_1 next = length done ->
  (length rem < fuel)%nat ->
  exists tokens,
    Utils.split_loop fuel s delim next elems = Some (elems ++ tokens)
    /\ fields delim rem tokens.
Proof.
  induction fuel as [|fuel IH]; intros s done rem next elems -> Hnext Hfuel; [lia|].
  cbn [Utils.split_loop]. unfold Utils.find_first_not_of, Utils.find_from.
  rewrite Hnext, drop_app_length.
  destruct (Utils.find_index _ rem) as [i|] eqn:Hskip; cbn [fmap option_fmap option_map].
  - apply find_index_Some in Hskip
      as (gap & c & post & -> & Hi & Hgap & Hc).
    apply in_delim_true in Hc.
    assert (Hgap' : Forall (fun c => c ∈ delim) gap)
      by (eapply Forall_impl; [exact Hgap|]; intros; apply in_delim_false; assumption).
    unfold Utils.find_first_of, Utils.find_from.
    replace (done ++ gap ++ c :: post) with ((done ++ gap) ++ c :: post)
      by (rewrite <- app_assoc; reflexivity).
    replace (length done + i)%nat with (length (done ++ gap))
      by (rewrite length_app; lia).
    rewrite drop_app_length.
    destruct (Utils.find_index _ (c :: post)) as [j|] eqn:Hend;
      cbn [fmap option_fmap option_map Utils.substr].
    + apply find_index_Some in Hend as (token & d & rest & Heq & Hj & Htoken & Hd).
      apply bool_decide_eq_true in Hd.
      assert (Htoken' : Forall (fun c => c ∉ delim) token)
        by (eapply Forall_impl; [exact Htoken|]; intros;
            apply not_in_delim; assumption).
      assert (Hne : token <> []).
      { intros ->. simpl in Heq. injection Heq as -> _. contradiction. }
      rewrite drop_app_length, Heq.
      replace (length (done ++ gap) + j - length (done ++ gap))%nat with (length token)
        by lia.
      rewrite take_app_length.
      destruct (IH ((done ++ gap) ++ token ++ d :: rest)
                  (((done ++ gap) ++ token) ++ [d]) rest
                  (Some (length (done ++ gap) + j)%nat) (elems ++ [token]))
        as (tokens & Hrun & Hfields).
      * rewrite <- !app_assoc. reflexivity.
      * simpl. rewrite !length_app. simpl. lia.
      * apply (f_equal length) in Heq. rewrite !length_app in *. simpl in *. lia.
      * exists (token :: tokens). rewrite Hrun, <- app_assoc. split; [reflexivity|].
        apply fields_more; assumption.
    + apply find_index_None in Hend.
      rewrite drop_app_length.
      exists [c :: post]. split; [reflexivity|].
      apply fields_last; [assumption|discriminate|].
      eapply Forall_impl; [exact Hend|]. intros; apply not_in_delim; assumption.
  - apply find_index_None in Hskip. exists []. rewrite app_nil_r.
    split; [reflexivity|]. apply fields_none.
    eapply Forall_impl; [exact Hskip|]. intros; apply in_delim_false; assumption.
Qed.

Lemma filter_delims (delim gap : list byte) :
  Forall (fun c => c ∈ delim) gap -> filter (fun c => c ∉ delim) gap = [].
Proof.
  induction 1 as [|c gap Hc _ IH]; [reflexivity|].
  rewrite filter_cons, IH. destruct (decide (c ∉ delim)); [contradiction|reflexivity].
Qed.

Lemma filter_token (delim token : list byte) :
  Forall (fun c => c ∉ delim) token -> filter (fun c => c ∉ delim) token = token.
Proof.
  induction 1 as [|c token Hc _ IH]; [reflexivity|].
  rewrite filter_cons, IH. destruct (decide (c ∉ delim)); [reflexivity|contradiction].
Qed.

Lemma fields_tokens delim s tokens :
  fields delim s tokens ->
  Forall (fun t => t <> [] /\ Forall (fun c => c ∉ delim) t) tokens
  /\ concat tokens = filter (fun c => c ∉ delim) s.
Proof.
  induction 1 as [gap Hgap|gap token Hgap Hne Htok
                 |gap token d rest tokens Hgap Hne Htok Hd _ [IH1 IH2]].
  - split; [constructor|]. rewrite filter_delims by assumption. reflexivity.
  - split; [repeat constructor; assumption|].
    rewrite filter_app, filter_delims, filter_token by assumption.
    simpl. apply app_nil_r.
  - split; [constructor; [split|]; assumption|].
    rewrite !filter_app, filter_cons, filter_delims, filter_token by assumption.
    destruct (decide (d ∉ delim)); [contradiction|]. simpl. rewrite IH2. reflexivity.
Qed.

(** A run of elements with [P] that is followed by one without fixes the
    place of that element. *)
Lemma run_then_other (P : byte -> Prop) l1 : forall l2 x1 x2 r1 r2,
  Forall P l1 -> Forall P l2 -> ~ P x1 -> ~ P x2 ->
  l1 ++ x1 :: r1 = l2 ++ x2 :: r2 -> l1 = l2 /\ x1 = x2 /\ r1 = r2.
Proof.
  induction l1 as [|a l1 IH]; intros [|b l2] x1 x2 r1 r2 H1 H2 Hx1 Hx2 Heq;
    simpl in Heq; injection Heq as -> Heq.
  - auto.
  - exfalso. apply Hx1. apply (Forall_inv H2).
  - exfalso. apply Hx2. apply (Forall_inv H1).
  - destruct (IH l2 x1 x2 r1 r2) as (-> & -> & ->);
      eauto using Forall_inv_tail.
Qed.

Lemma run_to_the_end (P : byte -> Prop) l1 x r l2 :
  Forall P l2 -> ~ P x -> l1 ++ x :: r = l2 -> False.
Proof.
  intros H2 Hx <-. apply Forall_app in H2 as [_ H2]. apply Hx, (Forall_inv H2).
Qed.

(** A string has one sequence of fields. *)
Lemma token_head (delim : list byte) token :
  token <> [] -> Forall (fun c => c ∉ delim) token ->
  exists x token', token = x :: token' /\ ~ x ∈ delim
                   /\ Forall (fun c => c ∉ delim) token'.
Proof.
  intros Hne Htok. destruct token as [|x token']; [contradiction|].
  exists x, token'. split; [reflexivity|].
  split; [apply (Forall_inv Htok)|apply (Forall_inv_tail Htok)].
Qed.

Lemma fields_unique delim s tokens1 :
  fields delim s tokens1 -> forall tokens2, fields delim s tokens2 -> tokens1 = tokens2.
Proof.
  induction 1 as [gap Hgap|gap token Hgap Hne Htok
                 |gap token d rest tokens Hgap Hne Htok Hd _ IH];
    intros tokens2 H2;
    inversion H2 as [gap' Hgap' Hs|gap' token' Hgap' Hne' Htok' Hs
                    |gap' token' d' rest' tokens' Hgap' Hne' Htok' Hd' Hrest' Hs];
    try (destruct (token_head delim token Hne Htok) as (x & tk & -> & Hx & Htk));
    try (destruct (token_head delim token' Hne' Htok') as (x' & tk' & -> & Hx' & Htk'));
    simpl in Hs.
  - reflexivity.
  - exfalso. apply (run_to_the_end (fun c => c ∈ delim) gap' x' tk' gap); assumption.
  - exfalso.
    apply (run_to_the_end (fun c => c ∈ delim) gap' x' (tk' ++ d' :: rest') gap);
      assumption.
  - exfalso.
    apply (run_to_the_end (fun c => c ∈ delim) gap x tk _ Hgap' Hx eq_refl).
  - apply (run_then_other (fun c => c ∈ delim)) in Hs as (_ & -> & ->);
      try assumption. reflexivity.
  - exfalso.
    apply (run_then_other (fun c => c ∈ delim)) in Hs as (_ & _ & Hs);
      try assumption.
    apply (run_to_the_end (fun c => c ∉ delim) tk' d' rest' tk); auto.
  - exfalso.
    apply (run_to_the_end (fun c => c ∈ delim) gap x (tk ++ d :: rest) _ Hgap' Hx eq_refl).
  - exfalso.
    apply (run_then_other (fun c => c ∈ delim)) in Hs as (_ & _ & Hs);
      try assumption. symmetry in Hs.
    apply (run_to_the_end (fun c => c ∉ delim) tk d rest tk'); auto.
  - apply (run_then_other (fun c => c ∈ delim)) in Hs as (_ & -> & Hs);
      try assumption.
    apply (run_then_other (fun c => c ∉ delim)) in Hs as (-> & _ & ->); auto.
    f_equal. apply IH. assumption.
Qed.

(** [split] returns the fields of [s], the maximal runs of characters that
    are not in [delim], in order; and these are the only fields of [s]. *)
Theorem split_fields (s delim : list byte) :
  exists tokens,
    Utils.split s delim = Some tokens
    /\ fields delim s tokens
    /\ forall tokens', fields delim s tokens' -> tokens' = tokens.
Proof.
  destruct (split_loop_fields delim (S (length s)) s [] s None [])
    as (tokens & Hrun & Hfields); [reflexivity|reflexivity|lia|].
  exists tokens. split; [exact Hrun|]. split; [exact Hfields|].
  intros tokens' H'. symmetry. apply (fields_unique delim s tokens Hfields tokens' H').
Qed.

(** No token that [split] returns is empty or has a delimiter character in
    it, and the tokens together are the characters of [s] that are not
    delimiters: nothing else is dropped or added.  So a string of
    delimiters only, like the empty string, has no tokens. *)
Theorem split_tokens (s delim : list byte) :
  exists tokens,
    Utils.split s delim = Some tokens
    /\ Forall (fun t => t <> [] /\ Forall (fun c => c ∉ delim) t) tokens
    /\ concat tokens = filter (fun c => c ∉ delim) s
    /\ (Forall (fun c => c ∈ delim) s -> tokens = []).
Proof.
  destruct (split_loop_fields delim (S (length s)) s [] s None [])
    as (tokens & Hrun & Hfields); [reflexivity|reflexivity|lia|].
  exists tokens. split; [exact Hrun|].
  destruct (fields_tokens delim s tokens Hfields) as [Hall Hcat].
  split; [exact Hall|]. split; [exact Hcat|].
  intros Hs. rewrite filter_delims in Hcat by assumption.
  destruct tokens as [|t tokens]; [reflexivity|].
  apply Forall_inv in Hall as [Hne _]. simpl in Hcat.
  apply app_eq_nil in Hcat as [Ht _]. contradiction.
Qed.

(** ** More on [rspUnescape] *)

Lemma rspUnescape_decodes_witness :
  exists h',
    Utils.rspUnescape true 5 (Mem.Heap [x61; x7d; x03; x7d; x5d; x62] [])
    = (Mem.Done (5 - escapes (payload 5 (Mem.Heap [x61; x7d; x03; x7d; x5d; x62] [])))%nat, h')
    /\ take (5 - escapes (payload 5 (Mem.Heap [x61; x7d; x03; x7d; x5d; x62] [])))
         (Mem.cells h')
       = unescaped (payload 5 (Mem.Heap [x61; x7d; x03; x7d; x5d; x62] []))
    /\ drop (5 - escapes (payload 5 (Mem.Heap [x61; x7d; x03; x7d; x5d; x62] [])))
         (Mem.cells h')
       = drop (5 - escapes (payload 5 (Mem.Heap [x61; x7d; x03; x7d; x5d; x62] [])))
           [x61; x7d; x03; x7d; x5d; x62].
Proof.
  apply (rspUnescape_decodes true 5 (Mem.Heap [x61; x7d; x03; x7d; x5d; x62] [])).
  - simpl. lia.
  - reflexivity.
Defined.

Lemma no_escape_unescaped l :
  Forall (fun c => c <> x7d) l ->
  unescaped l = l /\ open_escape l = false.
Proof.
  induction 1 as [|c l Hc _ [IH1 IH2]]; [auto|].
  assert (Hesc : is_escape c = false) by (apply bool_decide_eq_false; exact Hc).
  rewrite unescaped_copy, open_escape_copy, IH1 by assumption. auto.
Qed.

(** A payload without any ['}'] is left as it is: [rspUnescape] returns
    [len] and the buffer holds what it held before. *)
Theorem rspUnescape_without_escapes
    (char_is_signed : bool) (cells : list byte) (lg : list Mem.access) (len : nat) :
  (len <= length cells)%nat -> Forall (fun c => c <> x7d) (take len cells) ->
  exists h',
    Utils.rspUnescape char_is_signed len (Mem.Heap cells lg) = (Mem.Done len, h')
    /\ Mem.cells h' = cells.
Proof.
  intros Hlen Hnone.
  destruct (no_escape_unescaped _ Hnone) as [Hsame Hclosed].
  destruct (rspUnescape_closed char_is_signed len (Mem.Heap cells lg) Hlen Hclosed)
    as (lg' & Hrun & _).
  unfold payload in Hrun. simpl in Hrun. rewrite Hsame, length_take in Hrun.
  rewrite Nat.min_l, take_drop in Hrun by lia.
  eexists. split; [exact Hrun|reflexivity].
Qed.

Lemma rspUnescape_without_escapes_witness :
  exists h',
    Utils.rspUnescape false 2 (Mem.Heap [x4f; x4b; x7d] []) = (Mem.Done 2%nat, h')
    /\ Mem.cells h' = [x4f; x4b; x7d].
Proof.
  apply (rspUnescape_without_escapes false [x4f; x4b; x7d] [] 2).
  - simpl. lia.
  - repeat constructor; discriminate.
Defined.

Lemma open_escape_escapes l : open_escape l = true -> (1 <= escapes l)%nat.
Proof.
  induction l as [| |d l IH|c l Hc IH] using escape_ind; intros Hopen.
  - discriminate.
  - simpl. lia.
  - simpl. lia.
  - rewrite open_escape_copy in Hopen by assumption.
    simpl. rewrite Hc. apply IH, Hopen.
Qed.

Lemma drop_front (out cells : list byte) len :
  (length out <= len)%nat ->
  drop len (out ++ drop (length out) cells) = drop len cells.
Proof.
  intros Hle. rewrite drop_app_ge by assumption.
  rewrite drop_drop. f_equal. lia.
Qed.

(** Whatever the payload, [rspUnescape] keeps the size of the buffer and
    changes no byte at index [len] or above: also on a dangling escape,
    where it reads the byte at [len], it writes below [len] only. *)
Theorem rspUnescape_keeps_tail
    (char_is_signed : bool) (cells : list byte) (lg : list Mem.access) (len : nat) :
  (len <= length cells)%nat ->
  let h' := snd (Utils.rspUnescape char_is_signed len (Mem.Heap cells lg)) in
  length (Mem.cells h') = length cells
  /\ drop len (Mem.cells h') = drop len cells.
Proof.
  intros Hlen h'. subst h'.
  pose proof (unescaped_length (take len cells)) as Hcount.
  assert (Hpay : length (take len cells) = len) by (rewrite length_take; lia).
  set (out := unescaped (take len cells)) in *.
  assert (Hshape : forall out' : list byte, (length out' <= len)%nat ->
            length (out' ++ drop (length out') cells) = length cells
            /\ drop len (out' ++ drop (length out') cells) = drop len cells).
  { intros out' Hle. split; [|apply drop_front, Hle].
    rewrite length_app, length_drop. lia. }
  destruct (open_escape (take len cells)) eqn:Hesc.
  - pose proof (open_escape_escapes _ Hesc) as Hone.
    destruct (rspUnescape_open char_is_signed len (Mem.Heap cells lg) Hlen Hesc)
      as (lg' & _ & Hsome & Hnone).
    unfold payload in Hsome, Hnone. simpl in Hsome, Hnone. fold out in Hsome, Hnone.
    destruct (cells !! len) as [d|] eqn:Hd.
    + rewrite (Hsome d eq_refl). simpl. apply Hshape.
      rewrite length_app. simpl. lia.
    + rewrite (Hnone eq_refl). simpl. apply Hshape. lia.
  - destruct (rspUnescape_closed char_is_signed len (Mem.Heap cells lg) Hlen Hesc)
      as (lg' & Hrun & _).
    unfold payload in Hrun. simpl in Hrun. fold out in Hrun.
    rewrite Hrun. simpl. apply Hshape. lia.
Qed.

Lemma rspUnescape_keeps_tail_witness :
  length (Mem.cells (snd (Utils.rspUnescape true 2 (Mem.Heap [x7d; x7d; x7d; x41] []))))
  = length [x7d; x7d; x7d; x41]
  /\ drop 2 (Mem.cells (snd (Utils.rspUnescape true 2 (Mem.Heap [x7d; x7d; x7d; x41] []))))
     = drop 2 [x7d; x7d; x7d; x41].
Proof.
  apply (rspUnescape_keeps_tail true [x7d; x7d; x7d; x41] [] 2). simpl. lia.
Defined.

(** On a payload that ends in a dangling escape, [rspUnescape] takes the
    byte behind the payload for the escaped one: with such a byte in the
    buffer it returns one more than [len] minus the number of escape
    prefixes, and that byte with bit 5 flipped is the last decoded byte;
    when the buffer ends with the payload, the read is outside of it. *)
Theorem rspUnescape_dangling
    (char_is_signed : bool) (cells : list byte) (lg : list Mem.access) (len : nat) :
  (len <= length cells)%nat -> open_escape (take len cells) = true ->
  match cells !! len with
  | Some d =>
      exists h',
        Utils.rspUnescape char_is_signed len (Mem.Heap cells lg)
        = (Mem.Done (len - escapes (take len cells) + 1)%nat, h')
        /\ take (len - escapes (take len cells) + 1) (Mem.cells h')
           = unescaped (take len cells) ++ [flip_bit5 d]
  | None =>
      fst (Utils.rspUnescape char_is_signed len (Mem.Heap cells lg))
      = Mem.OutOfBounds len
  end.
Proof.
  intros Hlen Hesc.
  pose proof (unescaped_length (take len cells)) as Hcount.
  assert (Hpay : length (take len cells) = len) by (rewrite length_take; lia).
  destruct (rspUnescape_open char_is_signed len (Mem.Heap cells lg) Hlen Hesc)
    as (lg' & _ & Hsome & Hnone).
  unfold payload in Hsome, Hnone. simpl in Hsome, Hnone.
  destruct (cells !! len) as [d|].
  - specialize (Hsome d eq_refl).
    replace (len - escapes (take len cells) + 1)%nat
      with (length (unescaped (take len cells) ++ [flip_bit5 d]))
      by (rewrite length_app; simpl; lia).
    eexists. split; [exact Hsome|]. simpl. apply take_app_length.
  - rewrite (Hnone eq_refl). reflexivity.
Qed.

Lemma rspUnescape_dangling_witness :
  exists h',
    Utils.rspUnescape true 3 (Mem.Heap [x61; x62; x7d; x03] [])
    = (Mem.Done (3 - escapes (take 3 [x61; x62; x7d; x03]) + 1)%nat, h')
    /\ take (3 - escapes (take 3 [x61; x62; x7d; x03]) + 1) (Mem.cells h')
       = unescaped (take 3 [x61; x62; x7d; x03]) ++ [flip_bit5 x03].
Proof.
  apply (rspUnescape_dangling true [x61; x62; x7d; x03] [] 3).
  - simpl. lia.
  - reflexivity.
Defined.

(** ** Witnesses and one more relation between the parsers *)

Lemma killCore_is_final_witness :
  CoreManager.isLive
    (CoreManager.calls [CoreManager.SetResumeType ITarget.ResumeType.CONTINUE]
       (CoreManager.killCore CoreManager.CoreState_new)) = false
  /\ CoreManager.isLive
       (CoreManager.calls [CoreManager.SetStopReason ITarget.ResumeRes.STEPPED]
          CoreManager.CoreState_new) = true.
Proof.
  split.
  - apply (killCore_is_final [CoreManager.SetResumeType ITarget.ResumeType.CONTINUE]
             CoreManager.CoreState_new).
  - apply (killCore_is_final [CoreManager.SetStopReason ITarget.ResumeRes.STEPPED]
             CoreManager.CoreState_new).
    intros [H|[]]. discriminate H.
Defined.

Lemma regVal2Hex_needs_room_witness :
  is_Some (Utils.regVal2Hex 7 (replicate 9 x00) 4 true)
  /\ ~ is_Some (Utils.regVal2Hex 7 (replicate 8 x00) 4 true).
Proof.
  split.
  - apply (regVal2Hex_needs_room 7 (replicate 9 x00) 4 true). simpl. lia.
  - intros H. apply (regVal2Hex_needs_room 7 (replicate 8 x00) 4 true) in H.
    simpl in H. lia.
Defined.

Lemma split_fields_witness :
  exists tokens,
    Utils.split (list_byte_of_string "set  debug") (list_byte_of_string " ")
    = Some tokens
    /\ fields (list_byte_of_string " ") (list_byte_of_string "set  debug") tokens
    /\ forall tokens',
         fields (list_byte_of_string " ") (list_byte_of_string "set  debug") tokens' ->
         tokens' = tokens.
Proof.
  apply (split_fields (list_byte_of_string "set  debug") (list_byte_of_string " ")).
Defined.

Lemma split_tokens_witness :
  exists tokens,
    Utils.split (list_byte_of_string "   ") (list_byte_of_string " ") = Some tokens
    /\ tokens = [].
Proof.
  destruct (split_tokens (list_byte_of_string "   ") (list_byte_of_string " "))
    as (tokens & Hrun & _ & _ & Hnone).
  exists tokens. split; [exact Hrun|]. apply Hnone.
  repeat constructor.
Defined.

(** Big-endian [hex2RegVal] is [hex2Val] on the [2 * numBytes] characters:
    the two agree on every buffer, whatever its characters are, and also
    in reading past a buffer that is too short. *)
Theorem hex2RegVal_big_endian_hex2Val
    (char_is_signed : bool) (buf : list byte) (numBytes : nat) :
  Utils.hex2RegVal char_is_signed buf numBytes false
  = Utils.hex2Val char_is_signed buf (numBytes * 2).
Proof.
  unfold Utils.hex2RegVal, Utils.hex2Val.
  apply (hex2RegVal_be_is_hex2Val_loop char_is_signed buf numBytes 0 0).
Qed.

(** ** Examples *)

Example val2Hex_ex :
  Utils.val2Hex 0x1a2b (replicate 6 x01) = Some (list_byte_of_string "1a2b" ++ [x00; x01], 4%nat)
  /\ Utils.val2Hex 0 (replicate 3 x01) = Some (list_byte_of_string "0" ++ [x00; x01], 1%nat).
Proof. split; reflexivity. Qed.

Example ascii2Hex_ex :
  Utils.ascii2Hex true (replicate 6 x01) (list_byte_of_string "Hi" ++ [x00])
  = Some (list_byte_of_string "4869" ++ [x00; x01])
  /\ Utils.hex2Ascii true (replicate 4 x01) (list_byte_of_string "4869" ++ [x00])
     = Some (list_byte_of_string "Hi" ++ [x00; x01]).
Proof. split; reflexivity. Qed.

Example split_ex :
  Utils.split (list_byte_of_string "  set  debug 1 ") (list_byte_of_string " ")
  = Some [list_byte_of_string "set"; list_byte_of_string "debug"; list_byte_of_string "1"]
  /\ Utils.split (list_byte_of_string "a,b;;c") (list_byte_of_string ",;")
     = Some [list_byte_of_string "a"; list_byte_of_string "b"; list_byte_of_string "c"]
  /\ Utils.split [] (list_byte_of_string " ") = Some [].
Proof. repeat split; reflexivity. Qed.
